(** * Nagel-Schreckenberg traffic model (model.py)

    A shallow embedding of [VehicleAgent] and [NaSchTraffic] together with
    the parts of the agent framework they call (the toroidal single-occupancy
    grid, the simultaneous-activation schedule, the data collector and the
    seeded random source), followed by the properties of the update rule. *)

From Stdlib Require Import ZArith QArith Lia.
From stdpp Require Import numbers gmap list.

Local Open Scope Z_scope.

(** ** Exceptions and results *)

Inductive Exception :=
  | IndexError      (* cells[vehicle_iter] past the end of the list *)
  | GridFull        (* position_agent: "ERROR: Grid full" *)
  | CellNotEmpty    (* SingleGrid._place_agent: "Cell not empty" *)
  | TypeError.      (* advance() before any step(): _next_pos is None *)

Inductive result (A : Type) :=
  | Ok (a : A)
  | Raise (e : Exception).
Arguments Ok {A} a.
Arguments Raise {A} e.

#[global] Instance result_ret : MRet result := fun A a => Ok a.
#[global] Instance result_bind : MBind result := fun A B k m =>
  match m with
  | Ok a => k a
  | Raise e => Raise e
  end.

(** ** The random source

    [model.random] is a [random.Random] seeded at construction.  The model
    uses three of its operations: [random()], [shuffle] and (inside the
    grid's [position_agent]) [choice].  The generator itself is library
    code; it is kept abstract, with the two facts the model relies on:
    [shuffle] returns a permutation of its argument, and [choice] returns an
    element of its argument ([None] stands for an empty argument, which the
    grid rules out before it calls [choice]). *)

Class RandomSource (rng : Type) := {
  rng_seed : Z -> rng;
  rng_random : rng -> Q * rng;
  rng_shuffle : list (Z * Z) -> rng -> list (Z * Z) * rng;
  rng_choice : list (Z * Z) -> rng -> option (Z * Z) * rng;
  rng_shuffle_perm : forall l g, (rng_shuffle l g).1 ≡ₚ l;
  rng_choice_elem : forall l g,
    match (rng_choice l g).1 with
    | Some c => c ∈ l
    | None => l = []
    end
}.

(** ** Grid (SingleGrid(width, height, torus=True)) *)

Abbreviation Coordinate := (Z * Z)%type.

(** A cell holds the agent standing on it, represented by its [unique_id],
    or nothing. *)
Record SingleGrid := mkGrid {
  grid_width : Z;
  grid_height : Z;
  grid_cells : gmap (Z * Z) (Z * Z)
}.

Definition out_of_bounds (g : SingleGrid) (p : Coordinate) : bool :=
  let '(x, y) := p in
  (x <? 0) || (grid_width g <=? x) || (y <? 0) || (grid_height g <=? y).

(** A grid that holds a vehicle has positive dimensions, so the modulus
    below is positive wherever the model calls [torus_adj]. *)
Definition torus_adj (g : SingleGrid) (p : Coordinate) : Coordinate :=
  if out_of_bounds g p then (p.1 mod grid_width g, p.2 mod grid_height g)
  else p.

(** [self.grid[x][y] is None]; the model only asks about cells that
    [torus_adj] or [coord_iter] produced. *)
Definition is_cell_empty (g : SingleGrid) (p : Coordinate) : bool :=
  match grid_cells g !! p with
  | None => true
  | Some _ => false
  end.

(** Cells in the order of [coord_iter]: x outermost, y innermost. *)
Definition coord_iter (g : SingleGrid) : list Coordinate :=
  x ← seqZ 0 (grid_width g); y ← seqZ 0 (grid_height g); [(x, y)].

Definition empties (g : SingleGrid) : list Coordinate :=
  filter (fun p => is_cell_empty g p = true) (coord_iter g).

(** ** Vehicles *)

Record VehicleAgent := mkVehicle {
  unique_id : Coordinate;
  pos : Coordinate;
  speed : Z;
  max_speed : Z;
  _next_pos : option Coordinate
}.

Definition set_speed (v : VehicleAgent) (s : Z) : VehicleAgent :=
  mkVehicle (unique_id v) (pos v) s (max_speed v) (_next_pos v).
Definition set_pos (v : VehicleAgent) (p : Coordinate) : VehicleAgent :=
  mkVehicle (unique_id v) p (speed v) (max_speed v) (_next_pos v).
Definition set_next_pos (v : VehicleAgent) (p : Coordinate) : VehicleAgent :=
  mkVehicle (unique_id v) (pos v) (speed v) (max_speed v) (Some p).

(** VehicleAgent.__init__(pos, model, max_speed): the framework's Agent
    constructor stores its first argument as [unique_id]. *)
Definition VehicleAgent_init (p : Coordinate) (ms : Z) : VehicleAgent :=
  mkVehicle p p 0 ms None.

Definition _remove_agent (g : SingleGrid) (p : Coordinate) : SingleGrid :=
  mkGrid (grid_width g) (grid_height g) (delete p (grid_cells g)).

Definition _place_agent (g : SingleGrid) (p : Coordinate) (v : VehicleAgent)
  : result SingleGrid :=
  if is_cell_empty g p
  then Ok (mkGrid (grid_width g) (grid_height g) (<[p := unique_id v]> (grid_cells g)))
  else Raise CellNotEmpty.

Definition move_agent (g : SingleGrid) (v : VehicleAgent) (p : Coordinate)
  : result (SingleGrid * VehicleAgent) :=
  let p := torus_adj g p in
  let g := _remove_agent g (pos v) in
  g ← _place_agent g p v;
  Ok (g, set_pos v p).

(** *** VehicleAgent.step, phase by phase *)

(** STEP 1: ACCELERATION *)
Definition accelerate (v : VehicleAgent) : VehicleAgent :=
  if speed v <? max_speed v then set_speed v (speed v + 1) else v.

(** STEP 2: DECELERATION.  The body of the [for distance in range(max_speed)]
    loop, with its two [break]s; [ds] is what is left of the range. *)
Fixpoint gap_scan (g : SingleGrid) (x y spd : Z) (ds : list Z)
    (distance_to_next : Z) : Z :=
  match ds with
  | [] => distance_to_next
  | distance :: ds =>
      let distance := distance + 1 in
      let test_x := x + distance in
      let test_pos := torus_adj g (test_x, y) in
      if is_cell_empty g test_pos then
        let distance_to_next := distance_to_next + 1 in
        if distance_to_next =? spd then distance_to_next
        else gap_scan g x y spd ds distance_to_next
      else distance_to_next
  end.

Definition decelerate (g : SingleGrid) (v : VehicleAgent) : VehicleAgent :=
  let '(x, y) := pos v in
  set_speed v (gap_scan g x y (speed v) (seqZ 0 (max_speed v)) 0).

(** STEP 3: RANDOMISATION, given the value drawn by [random()]. *)
Definition Qltb (a b : Q) : bool := negb (Qle_bool b a).

Definition randomise (u : Q) (v : VehicleAgent) : VehicleAgent :=
  if Qltb u (3 # 10) && (0 <? speed v) then set_speed v (speed v - 1) else v.

(** STEP 4: MOVEMENT *)
Definition movement (g : SingleGrid) (v : VehicleAgent) : VehicleAgent :=
  let '(x, y) := pos v in
  let x := x + speed v in
  set_next_pos v (torus_adj g (x, y)).

Section WithRandomSource.
Context {rng : Type} `{RandomSource rng}.

(** The grid is only read; the agent, the shared random source and the
    model's [total_speed] are updated. *)
Definition VehicleAgent_step (g : SingleGrid) (v : VehicleAgent) (r : rng)
    (total_speed : Z) : VehicleAgent * rng * Z :=
  let v := accelerate v in
  let v := decelerate g v in
  let '(u, r) := rng_random r in
  let v := randomise u v in
  let v := movement g v in
  (v, r, total_speed + speed v).

Definition VehicleAgent_advance (g : SingleGrid) (v : VehicleAgent)
  : result (SingleGrid * VehicleAgent) :=
  match _next_pos v with
  | Some p => move_agent g v p
  | None => Raise TypeError
  end.

(** ** The schedule (SimultaneousActivation) *)

Record SimultaneousActivation := mkSchedule {
  _agents : list VehicleAgent;   (* ordered dict keyed by unique_id *)
  steps : Z
}.

(** schedule.add(agent): [self._agents[agent.unique_id] = agent]. *)
Fixpoint agents_insert (a : VehicleAgent) (l : list VehicleAgent)
  : list VehicleAgent :=
  match l with
  | [] => [a]
  | b :: l =>
      if decide (unique_id b = unique_id a) then a :: l
      else b :: agents_insert a l
  end.

Definition schedule_add (s : SimultaneousActivation) (a : VehicleAgent)
  : SimultaneousActivation :=
  mkSchedule (agents_insert a (_agents s)) (steps s).

Definition get_agent_count (s : SimultaneousActivation) : Z :=
  Z.of_nat (length (_agents s)).

(** First loop of schedule.step(): every agent's step(), in order. *)
Fixpoint step_agents (g : SingleGrid) (vs : list VehicleAgent) (r : rng)
    (total_speed : Z) : list VehicleAgent * rng * Z :=
  match vs with
  | [] => ([], r, total_speed)
  | v :: vs =>
      let '(v, r, total_speed) := VehicleAgent_step g v r total_speed in
      let '(vs, r, total_speed) := step_agents g vs r total_speed in
      (v :: vs, r, total_speed)
  end.

(** Second loop of schedule.step(): every agent's advance(), in order. *)
Fixpoint advance_agents (g : SingleGrid) (vs : list VehicleAgent)
  : result (SingleGrid * list VehicleAgent) :=
  match vs with
  | [] => Ok (g, [])
  | v :: vs =>
      '(g, v) ← VehicleAgent_advance g v;
      '(g, vs) ← advance_agents g vs;
      Ok (g, v :: vs)
  end.

(** ** The data collector

    One model-level value and one table of agent rows (unique_id, PosX,
    Speed) per call of collect, the table tagged with schedule.steps. *)

Record DataCollector := mkCollector {
  model_vars : list Q;
  agent_records : list (Z * list (Coordinate * Z * Z))
}.

Definition agent_row (v : VehicleAgent) : Coordinate * Z * Z :=
  (unique_id v, (pos v).1, speed v).

Definition collect (d : DataCollector) (average_speed : Q)
    (s : SimultaneousActivation) : DataCollector :=
  mkCollector (model_vars d ++ [average_speed])
              (agent_records d ++ [(steps s, agent_row <$> _agents s)]).

(** ** The model *)

Record NaSchTraffic := mkModel {
  height : Z;
  width : Z;
  vehicle_quantity : Z;
  general_max_speed : Z;
  schedule : SimultaneousActivation;
  grid : SingleGrid;
  average_speed : Q;
  averages : list Q;
  total_speed : Z;
  datacollector : DataCollector;
  running : bool;
  random : rng
}.

(** SingleGrid.position_agent(agent, x="random", y="random").  The call in
    __init__ passes the coordinate pair as [x] and leaves [y] at its default,
    so the grid takes the branch that draws the cell among its empty cells
    with the agent's (that is, the model's) random source. *)
Definition position_agent (g : SingleGrid) (v : VehicleAgent) (r : rng)
  : result (SingleGrid * VehicleAgent * rng) :=
  match rng_choice (empties g) r with
  | (None, _) => Raise GridFull
  | (Some coords, r) =>
      let v := set_pos v coords in
      g ← _place_agent g coords v;
      Ok (g, v, r)
  end.

(** The body of [for vehicle_iter in range(0, self.vehicle_quantity)]. *)
Fixpoint place_vehicles (cells : list Coordinate) (ms : Z) (iters : list Z)
    (g : SingleGrid) (s : SimultaneousActivation) (r : rng)
  : result (SingleGrid * SimultaneousActivation * rng) :=
  match iters with
  | [] => Ok (g, s, r)
  | vehicle_iter :: iters =>
      match cells !! Z.to_nat vehicle_iter with
      | None => Raise IndexError
      | Some (x, y) =>
          let agent := VehicleAgent_init (x, y) ms in
          '(g, agent, r) ← position_agent g agent r;
          let s := schedule_add s agent in
          place_vehicles cells ms iters g s r
      end
  end.

(** NaSchTraffic.__init__ with an explicit seed.  (With [seed=None] the
    framework seeds the source from the clock; that case is not modelled.) *)
Definition NaSchTraffic_init (height width vehicle_quantity general_max_speed
    seed : Z) : result NaSchTraffic :=
  let random := rng_seed seed in
  let schedule := mkSchedule [] 0 in
  let grid := mkGrid width height ∅ in
  let average_speed := 0%Q in
  let averages := [] in
  let total_speed := 0 in
  let datacollector := mkCollector [] [] in
  let cells := coord_iter grid in
  let '(cells, random) := rng_shuffle cells random in
  '(grid, schedule, random) ←
    place_vehicles cells general_max_speed (seqZ 0 vehicle_quantity)
                   grid schedule random;
  let running := true in
  let datacollector := collect datacollector average_speed schedule in
  Ok (mkModel height width vehicle_quantity general_max_speed schedule grid
              average_speed averages total_speed datacollector running random).

(** NaSchTraffic.step *)
Definition NaSchTraffic_step (m : NaSchTraffic) : result NaSchTraffic :=
  let running := if steps (schedule m) =? 100 then false else running m in
  let total_speed := 0 in
  (* self.schedule.step() *)
  let '(agents, random, total_speed) :=
    step_agents (grid m) (_agents (schedule m)) (random m) total_speed in
  '(grid, agents) ← advance_agents (grid m) agents;
  let schedule := mkSchedule agents (steps (schedule m) + 1) in
  let average_speed :=
    if 0 <? get_agent_count schedule
    then (inject_Z total_speed / inject_Z (get_agent_count schedule))%Q
    else 0%Q in
  let averages := averages m ++ [average_speed] in
  let datacollector := collect (datacollector m) average_speed schedule in
  Ok (mkModel (height m) (width m) (vehicle_quantity m) (general_max_speed m)
              schedule grid average_speed averages total_speed datacollector
              running random).

(** The host loop, [while model.running: model.step()], counting the calls
    it makes.  [None] means the loop was still going when the bound on the
    number of iterations was used up. *)
Fixpoint run_model (fuel : nat) (calls : nat) (m : NaSchTraffic)
  : option (result (nat * NaSchTraffic)) :=
  if running m then
    match fuel with
    | O => None
    | S fuel =>
        match NaSchTraffic_step m with
        | Ok m => run_model fuel (S calls) m
        | Raise e => Some (Raise e)
        end
    end
  else Some (Ok (calls, m)).

(** [n] calls of step(), stopping at the first exception. *)
Fixpoint steps_n (n : nat) (m : NaSchTraffic) : result NaSchTraffic :=
  match n with
  | O => Ok m
  | S n => m ← NaSchTraffic_step m; steps_n n m
  end.

(** States a run can be in: the constructor's, and those after step(). *)
Inductive reachable (h w q ms seed : Z) : NaSchTraffic -> Prop :=
  | reachable_init m :
      NaSchTraffic_init h w q ms seed = Ok m -> reachable h w q ms seed m
  | reachable_step m m' :
      reachable h w q ms seed m -> NaSchTraffic_step m = Ok m' ->
      reachable h w q ms seed m'.

End WithRandomSource.

Arguments NaSchTraffic rng : clear implicits.

(** ** A concrete random source

    A linear congruential generator, used to run the model on examples. *)

Definition lcg_next (s : Z) : Z := (1103515245 * s + 12345) mod 2147483648.

Definition lcg_index (s : Z) (n : nat) : nat :=
  match n with
  | O => O
  | S _ => Z.to_nat (s mod Z.of_nat n)
  end.

Definition lcg_random (s : Z) : Q * Z :=
  let s := lcg_next s in (s # 2147483648, s).

Definition lcg_shuffle (l : list (Z * Z)) (s : Z) : list (Z * Z) * Z :=
  let s := lcg_next s in (rotate (lcg_index s (length l)) l, s).

Definition lcg_choice (l : list (Z * Z)) (s : Z) : option (Z * Z) * Z :=
  let s := lcg_next s in (l !! lcg_index s (length l), s).

#[global, refine] Instance lcg_source : RandomSource Z := {|
  rng_seed := fun seed => seed mod 2147483648;
  rng_random := lcg_random;
  rng_shuffle := lcg_shuffle;
  rng_choice := lcg_choice
|}.
Proof.
  - intros l s. unfold lcg_shuffle, rotate; cbn.
    rewrite Permutation_app_comm. by rewrite take_drop.
  - intros l s. unfold lcg_choice; cbn.
    destruct (l !! _) as [c|] eqn:E.
    + eapply list_elem_of_lookup_2; eauto.
    + apply lookup_ge_None in E. destruct l as [|a l]; [done|].
      unfold lcg_index in E. cbn [length] in E.
      pose proof (Z.mod_pos_bound (lcg_next s) (Z.of_nat (S (length l)))). lia.
Defined.

(** ** The gap, in the words of the specification

    The number of consecutive empty cells immediately ahead of the cell
    (x, y), scanning at most [n] cells, the first one being (x + 1, y), with
    toroidal wraparound. *)
Fixpoint empty_run (g : SingleGrid) (x y : Z) (n : nat) : Z :=
  match n with
  | O => 0
  | S n =>
      if is_cell_empty g (torus_adj g (x + 1, y))
      then 1 + empty_run g (x + 1) y n
      else 0
  end.

Definition cells_ahead (g : SingleGrid) (v : VehicleAgent) : Z :=
  empty_run g (pos v).1 (pos v).2 (Z.to_nat (max_speed v)).

(** * Vocabulary of the properties *)

(** The negation of [out_of_bounds], as a proposition. *)
Definition in_bounds (g : SingleGrid) (p : Coordinate) : Prop :=
  0 <= p.1 < grid_width g /\ 0 <= p.2 < grid_height g.

(** All the cells a vehicle at [p] would cross or reach at speed [s] are
    empty. *)
Definition clear_ahead (g : SingleGrid) (p : Coordinate) (s : Z) : Prop :=
  forall d, 1 <= d <= s -> is_cell_empty g (torus_adj g (p.1 + d, p.2)) = true.

(** The cell the movement phase computes from position and speed. *)
Definition destination (g : SingleGrid) (v : VehicleAgent) : Coordinate :=
  torus_adj g ((pos v).1 + speed v, (pos v).2).

(** What step() leaves in a vehicle, for a grid [g] that it only reads. *)
Record stepped (g : SingleGrid) (v v' : VehicleAgent) : Prop := {
  stepped_id : unique_id v' = unique_id v;
  stepped_pos : pos v' = pos v;
  stepped_max : max_speed v' = max_speed v;
  stepped_nonneg : 0 <= speed v';
  stepped_gap : speed v' <= speed (decelerate g (accelerate v));
  stepped_clear : clear_ahead g (pos v) (speed v');
  stepped_next : _next_pos v' = Some (destination g v')
}.

(** The sum that [total_speed] accumulates over one step. *)
Definition sum_speeds (vs : list VehicleAgent) : Z :=
  foldr Z.add 0 (speed <$> vs).

(** The cell advance() moves a vehicle to, and the vehicle afterwards. *)
Definition nxt (w : VehicleAgent) : Coordinate :=
  match _next_pos w with
  | Some p => p
  | None => pos w
  end.

Definition commit (w : VehicleAgent) : VehicleAgent := set_pos w (nxt w).

(** Grid and schedule agree: the scheduled vehicles stand on distinct
    in-range cells, these are exactly the occupied cells, and no speed is
    negative or above the maximum (above 0 when the maximum is negative). *)
Record grid_inv (g : SingleGrid) (vs : list VehicleAgent) : Prop := {
  inv_bounds : forall v, v ∈ vs -> in_bounds g (pos v);
  inv_nodup : NoDup (pos <$> vs);
  inv_occ : forall p, is_cell_empty g p = false <-> p ∈ pos <$> vs;
  inv_speed : forall v, v ∈ vs -> 0 <= speed v <= Z.max 0 (max_speed v)
}.

(** A vehicle between its step() and its advance(), on the grid [g] that
    the compute phase has read. *)
Record ready (g : SingleGrid) (w : VehicleAgent) : Prop := {
  ready_bounds : in_bounds g (pos w);
  ready_occ : is_cell_empty g (pos w) = false;
  ready_speed : 0 <= speed w <= Z.max 0 (max_speed w);
  ready_clear : clear_ahead g (pos w) (speed w);
  ready_next : _next_pos w = Some (destination g w)
}.

(** What holds of a model between two calls of step(). *)
Record model_inv {rng : Type} (m : NaSchTraffic rng) : Prop := {
  minv_grid : grid_inv (grid m) (_agents (schedule m));
  minv_steps : 0 <= steps (schedule m);
  minv_running : running m = bool_decide (steps (schedule m) <= 100);
  minv_averages : Z.of_nat (length (averages m)) = steps (schedule m);
  minv_max : Forall (fun v => max_speed v = general_max_speed m)
                    (_agents (schedule m))
}.

(** No two vehicles of the schedule share a cell. *)
Definition pairwise_distinct (vs : list VehicleAgent) : Prop :=
  forall i j v u, vs !! i = Some v -> vs !! j = Some u -> i <> j ->
                  pos v <> pos u.

(** The next [n] values of [random()]. *)
Fixpoint draws {rng : Type} `{RandomSource rng} (n : nat) (r : rng) : list Q :=
  match n with
  | O => []
  | S n => (rng_random r).1 :: draws n (rng_random r).2
  end.

(** None of the next [n] values of [random()] triggers the braking rule. *)
Definition no_braking {rng : Type} `{RandomSource rng} (n : nat) (r : rng) : Prop :=
  Forall (fun u => Qltb u (3 # 10) = false) (draws n r).

(** What step() computes for vehicle [v] when [random()] returns [u]. *)
Definition compute (g : SingleGrid) (v : VehicleAgent) (u : Q) : VehicleAgent :=
  movement g (randomise u (decelerate g (accelerate v))).

(** Each vehicle with its y coordinate, and each position with the speed. *)
Definition rows (vs : list VehicleAgent) : list (Coordinate * Z) :=
  (fun v => (unique_id v, (pos v).2)) <$> vs.

Definition track (vs : list VehicleAgent) : list (Coordinate * Z) :=
  (fun v => (pos v, speed v)) <$> vs.

(** Construction and [n] steps with the concrete random source, and the
    model and first vehicle of such a run. *)
Definition run_lcg (h w q ms seed : Z) (n : nat) : result (NaSchTraffic Z) :=
  m ← NaSchTraffic_init h w q ms seed; steps_n n m.

Definition blank_model : NaSchTraffic Z :=
  mkModel 0 0 0 0 (mkSchedule [] 0) (mkGrid 0 0 ∅) 0%Q [] 0
          (mkCollector [] []) false 0.

Definition the_model (r : result (NaSchTraffic Z)) : NaSchTraffic Z :=
  match r with
  | Ok m => m
  | Raise _ => blank_model
  end.

Definition first_vehicle (m : NaSchTraffic Z) : VehicleAgent :=
  match _agents (schedule m) with
  | v :: _ => v
  | [] => VehicleAgent_init (0, 0) 0
  end.

(** The state of a random source after [n] calls of [random()]. *)
Fixpoint rng_after {rng : Type} `{RandomSource rng} (n : nat) (r : rng) : rng :=
  match n with
  | O => r
  | S n => rng_after n (rng_random r).2
  end.

(** [v'] is vehicle [v] after its step() on grid [g] and its advance(). *)
Definition advanced (g : SingleGrid) (v v' : VehicleAgent) : Prop :=
  exists w, stepped g v w /\ v' = commit w.

(** * Properties *)

(** ** Grid arithmetic *)

Lemma torus_adj_in_bounds g p : in_bounds g p -> torus_adj g p = p.
Proof.
  destruct p as [x y]; unfold in_bounds, torus_adj, out_of_bounds; cbn.
  intros [Hx Hy].
  destruct (x <? 0) eqn:E1; [lia|].
  destruct (grid_width g <=? x) eqn:E2; [lia|].
  destruct (y <? 0) eqn:E3; [lia|].
  destruct (grid_height g <=? y) eqn:E4; [lia|]. done.
Qed.

Lemma torus_adj_row g x y :
  0 < grid_width g -> 0 <= y < grid_height g ->
  torus_adj g (x, y) = (x mod grid_width g, y).
Proof.
  intros Hw Hy. unfold torus_adj.
  destruct (out_of_bounds g (x, y)) eqn:E; cbn.
  - by rewrite (Z.mod_small y) by lia.
  - unfold out_of_bounds in E.
    rewrite Z.mod_small; [done|]. lia.
Qed.

(** ** The gap scan *)

Lemma seqZ_step k n : 0 < n -> seqZ k n = k :: seqZ (k + 1) (n - 1).
Proof. intros Hn. by rewrite seqZ_cons. Qed.

Lemma empty_run_nonneg g x y n : 0 <= empty_run g x y n.
Proof.
  revert x; induction n as [|n IH]; intros x; cbn; [lia|].
  destruct (is_cell_empty _ _); [specialize (IH (x + 1))|]; lia.
Qed.

(** Every cell counted by [empty_run] is empty. *)
Lemma empty_run_clear g x y n d :
  1 <= d <= empty_run g x y n ->
  is_cell_empty g (torus_adj g (x + d, y)) = true.
Proof.
  revert x d; induction n as [|n IH]; intros x d Hd; cbn in Hd; [lia|].
  destruct (is_cell_empty g (torus_adj g (x + 1, y))) eqn:E; [|lia].
  destruct (decide (d = 1)) as [->|Hne]; [done|].
  replace (x + d) with ((x + 1) + (d - 1)) by lia.
  apply IH. lia.
Qed.

(** The loop counts in step with its index: entered with [distance_to_next]
    equal to the first remaining index [k], it returns [k] plus the empty run
    from there, cut at the tentative speed. *)
Lemma gap_scan_run g x y spd n k :
  k < spd ->
  gap_scan g x y spd (seqZ k (Z.of_nat n)) k
  = k + Z.min (spd - k) (empty_run g (x + k) y n).
Proof.
  revert k; induction n as [|n IH]; intros k Hk.
  - rewrite seqZ_nil by lia. cbn. lia.
  - rewrite seqZ_step by lia.
    replace (Z.of_nat (S n) - 1) with (Z.of_nat n) by lia.
    cbn [gap_scan empty_run].
    replace (x + (k + 1)) with (x + k + 1) by lia.
    destruct (is_cell_empty g (torus_adj g (x + k + 1, y))) eqn:E; [|lia].
    pose proof (empty_run_nonneg g (x + k + 1) y n).
    destruct (k + 1 =? spd) eqn:E2.
    + lia.
    + rewrite IH by lia. replace (x + (k + 1)) with (x + k + 1) by lia. lia.
Qed.

Lemma gap_scan_nil_or_pos g x y spd ms :
  0 <= spd -> (1 <= spd \/ ms <= 0) ->
  gap_scan g x y spd (seqZ 0 ms) 0
  = Z.min spd (empty_run g x y (Z.to_nat ms)).
Proof.
  intros Hs [Hpos|Hms].
  - destruct (decide (0 <= ms)) as [Hm|Hm].
    + rewrite <- (Z2Nat.id ms) at 1 by done.
      rewrite gap_scan_run by lia. rewrite Z.add_0_r. lia.
    + replace (Z.to_nat ms) with O by lia.
      rewrite seqZ_nil by lia. cbn. lia.
  - replace (Z.to_nat ms) with O by lia.
    rewrite seqZ_nil by lia. cbn. lia.
Qed.

Lemma speed_accelerate_cases v :
  0 <= speed v ->
  0 <= speed (accelerate v) /\
  (1 <= speed (accelerate v) \/ max_speed (accelerate v) <= 0).
Proof.
  intros Hs. unfold accelerate.
  destruct (speed v <? max_speed v) eqn:E; cbn; lia.
Qed.

Lemma accelerate_frame v :
  unique_id (accelerate v) = unique_id v /\ pos (accelerate v) = pos v /\
  max_speed (accelerate v) = max_speed v.
Proof. unfold accelerate. by destruct (_ <? _). Qed.

Lemma decelerate_speed g v :
  speed (decelerate g v)
  = gap_scan g (pos v).1 (pos v).2 (speed v) (seqZ 0 (max_speed v)) 0.
Proof. unfold decelerate. by destruct (pos v). Qed.

Lemma decelerate_frame g v :
  unique_id (decelerate g v) = unique_id v /\ pos (decelerate g v) = pos v /\
  max_speed (decelerate g v) = max_speed v.
Proof. destruct v as [i [x y] s ms nx]. done. Qed.

(** The post-gap-check speed of a vehicle whose speed is not negative. *)
Lemma gap_check_min g v :
  0 <= speed v ->
  speed (decelerate g (accelerate v))
  = Z.min (speed (accelerate v)) (cells_ahead g v).
Proof.
  intros Hs. rewrite decelerate_speed.
  destruct (speed_accelerate_cases v Hs) as [H0 Hc].
  destruct (accelerate_frame v) as (_ & Hp & Hm).
  rewrite gap_scan_nil_or_pos by done.
  unfold cells_ahead. by rewrite Hp, Hm.
Qed.

(** ** Where a vehicle may go *)

Lemma clear_ahead_mono g p s s' : s' <= s -> clear_ahead g p s -> clear_ahead g p s'.
Proof. intros Hle Hc d Hd. apply Hc. lia. Qed.

(** A vehicle stops short of the next occupied cell of its row. *)
Lemma clear_ahead_lt_gap g x x' y s :
  0 <= x < grid_width g -> 0 <= x' < grid_width g ->
  0 <= y < grid_height g -> x <> x' ->
  is_cell_empty g (x', y) = false -> clear_ahead g (x, y) s ->
  s < (x' - x) mod grid_width g.
Proof.
  intros Hx Hx' Hy Hne Hocc Hc.
  set (d := (x' - x) mod grid_width g).
  assert (Hd : 1 <= d < grid_width g).
  { pose proof (Z.mod_pos_bound (x' - x) (grid_width g)) as Hb.
    assert (d <> 0); [|subst d; lia].
    subst d. intros H0.
    destruct (decide (x < x')).
    - rewrite Z.mod_small in H0 by lia. lia.
    - replace (x' - x) with ((x' - x + grid_width g) + (-1) * grid_width g)
        in H0 by lia.
      rewrite Z.mod_add, Z.mod_small in H0 by lia. lia. }
  destruct (decide (s < d)) as [|Hge]; [done|].
  specialize (Hc d). cbn in Hc.
  rewrite torus_adj_row in Hc by lia.
  assert (Hm : (x + d) mod grid_width g = x').
  { subst d. rewrite Zplus_mod_idemp_r.
    replace (x + (x' - x)) with x' by lia. apply Z.mod_small. lia. }
  rewrite Hm, Hocc in Hc. assert (false = true) by (apply Hc; lia). done.
Qed.

(** Two vehicles on different cells that both stop short of the next
    occupied cell cannot reach the same cell. *)
Lemma destinations_differ g p1 p2 s1 s2 :
  in_bounds g p1 -> in_bounds g p2 -> p1 <> p2 ->
  is_cell_empty g p1 = false -> is_cell_empty g p2 = false ->
  0 <= s1 -> 0 <= s2 ->
  clear_ahead g p1 s1 -> clear_ahead g p2 s2 ->
  torus_adj g (p1.1 + s1, p1.2) <> torus_adj g (p2.1 + s2, p2.2).
Proof.
  destruct p1 as [x1 y1], p2 as [x2 y2].
  intros [Hx1 Hy1] [Hx2 Hy2] Hne Ho1 Ho2 Hs1 Hs2 Hc1 Hc2; cbn in *.
  rewrite !torus_adj_row by lia. intros Heq.
  injection Heq as Hm Hy. subst y2.
  assert (Hx : x1 <> x2) by congruence.
  pose proof (clear_ahead_lt_gap g x1 x2 y1 s1 Hx1 Hx2 Hy1 Hx Ho2 Hc1) as G1.
  pose proof (clear_ahead_lt_gap g x2 x1 y1 s2 Hx2 Hx1 Hy1
                (not_eq_sym Hx) Ho1 Hc2) as G2.
  destruct (decide (x1 < x2)).
  - rewrite (Z.mod_small (x2 - x1)) in G1 by lia.
    replace (x1 - x2) with ((x1 - x2 + grid_width g) + (-1) * grid_width g)
      in G2 by lia.
    rewrite Z.mod_add, Z.mod_small in G2 by lia.
    rewrite (Z.mod_small (x1 + s1)) in Hm by lia.
    destruct (decide (x2 + s2 < grid_width g)).
    + rewrite Z.mod_small in Hm by lia. lia.
    + replace (x2 + s2) with ((x2 + s2 - grid_width g) + 1 * grid_width g)
        in Hm by lia.
      rewrite Z.mod_add, Z.mod_small in Hm by lia. lia.
  - rewrite (Z.mod_small (x1 - x2)) in G2 by lia.
    replace (x2 - x1) with ((x2 - x1 + grid_width g) + (-1) * grid_width g)
      in G1 by lia.
    rewrite Z.mod_add, Z.mod_small in G1 by lia.
    rewrite (Z.mod_small (x2 + s2)) in Hm by lia.
    destruct (decide (x1 + s1 < grid_width g)).
    + rewrite Z.mod_small in Hm by lia. lia.
    + replace (x1 + s1) with ((x1 + s1 - grid_width g) + 1 * grid_width g)
        in Hm by lia.
      rewrite Z.mod_add, Z.mod_small in Hm by lia. lia.
Qed.

Lemma torus_adj_bounds g x y :
  0 < grid_width g -> 0 <= y < grid_height g -> in_bounds g (torus_adj g (x, y)).
Proof.
  intros Hw Hy. rewrite torus_adj_row by done. split; cbn; [|done].
  apply Z.mod_pos_bound. done.
Qed.

(** ** One vehicle's step *)

Lemma randomise_frame u v :
  unique_id (randomise u v) = unique_id v /\ pos (randomise u v) = pos v /\
  max_speed (randomise u v) = max_speed v.
Proof. unfold randomise. by destruct (_ && _). Qed.

Lemma randomise_speed u v :
  0 <= speed v -> 0 <= speed (randomise u v) <= speed v.
Proof.
  intros Hs. unfold randomise.
  destruct (Qltb u (3 # 10)); cbn; [|lia].
  destruct (0 <? speed v) eqn:E; cbn; lia.
Qed.

Lemma randomise_no_brake u v :
  Qltb u (3 # 10) = false -> randomise u v = v.
Proof. intros Hu. unfold randomise. by rewrite Hu. Qed.

Lemma movement_frame g v :
  unique_id (movement g v) = unique_id v /\ pos (movement g v) = pos v /\
  max_speed (movement g v) = max_speed v /\ speed (movement g v) = speed v /\
  _next_pos (movement g v) = Some (destination g v).
Proof. destruct v as [i [x y] s ms nx]. done. Qed.

Lemma gap_check_nonneg g v :
  0 <= speed v -> 0 <= speed (decelerate g (accelerate v)).
Proof.
  intros Hs. rewrite gap_check_min by done.
  destruct (speed_accelerate_cases v Hs) as [H0 _].
  pose proof (empty_run_nonneg g (pos v).1 (pos v).2 (Z.to_nat (max_speed v))).
  unfold cells_ahead. lia.
Qed.

Lemma gap_check_clear g v :
  0 <= speed v -> clear_ahead g (pos v) (speed (decelerate g (accelerate v))).
Proof.
  intros Hs d Hd. rewrite gap_check_min in Hd by done.
  eapply empty_run_clear. unfold cells_ahead in Hd. split; [lia|].
  etrans; [apply Hd|]. apply Z.le_min_r.
Qed.

Lemma accelerate_le v :
  speed v <= Z.max 0 (max_speed v) ->
  speed (accelerate v) <= Z.max 0 (max_speed v).
Proof.
  intros Hs. unfold accelerate.
  destruct (speed v <? max_speed v) eqn:E; cbn; lia.
Qed.

Section StepProofs.
Context {rng : Type} `{RandomSource rng}.

Lemma VehicleAgent_step_eq g v r t :
  VehicleAgent_step g v r t =
  (let v' := movement g (randomise (rng_random r).1 (decelerate g (accelerate v)))
   in (v', (rng_random r).2, t + speed v')).
Proof. unfold VehicleAgent_step. by destruct (rng_random r). Qed.

Lemma VehicleAgent_step_stepped g v r t :
  0 <= speed v -> stepped g v (VehicleAgent_step g v r t).1.1.
Proof.
  intros Hs. rewrite VehicleAgent_step_eq. cbv zeta. cbn [fst snd].
  destruct (decelerate_frame g (accelerate v)) as (D1 & D2 & D3).
  destruct (accelerate_frame v) as (A1 & A2 & A3).
  pose proof (gap_check_nonneg g v Hs) as Hw.
  pose proof (gap_check_clear g v Hs) as Hc.
  set (w := decelerate g (accelerate v)) in *.
  set (u := (rng_random r).1).
  destruct (movement_frame g (randomise u w)) as (M1 & M2 & M3 & M4 & M5).
  destruct (randomise_frame u w) as (R1 & R2 & R3).
  pose proof (randomise_speed u w Hw) as Hr.
  split.
  - by rewrite M1, R1, D1, A1.
  - by rewrite M2, R2, D2, A2.
  - by rewrite M3, R3, D3, A3.
  - rewrite M4. lia.
  - rewrite M4. fold w. lia.
  - rewrite M4. eapply clear_ahead_mono; [|exact Hc]. lia.
  - rewrite M5. unfold destination. by rewrite M2, M4.
Qed.

Lemma step_agents_spec g vs r t :
  Forall (fun v => 0 <= speed v) vs ->
  Forall2 (stepped g) vs (step_agents g vs r t).1.1 /\
  (step_agents g vs r t).2 = t + sum_speeds (step_agents g vs r t).1.1.
Proof.
  revert r t. induction vs as [|v vs IH]; intros r t Hvs; cbn.
  - split; [constructor|]. unfold sum_speeds; cbn. lia.
  - inversion Hvs as [|? ? Hv Hrest]; subst.
    pose proof (VehicleAgent_step_stepped g v r t Hv) as Hst.
    rewrite VehicleAgent_step_eq in *. cbn in *.
    set (v' := movement g _) in *.
    specialize (IH (rng_random r).2 (t + speed v') Hrest).
    destruct (step_agents g vs _ _) as [[vs' r'] t']. cbn in *.
    destruct IH as [IH1 IH2]. split; [by constructor|].
    unfold sum_speeds in *. cbn. lia.
Qed.

End StepProofs.

(** ** The commit phase *)

Lemma is_cell_empty_remove g q p :
  is_cell_empty (_remove_agent g q) p
  = if decide (q = p) then true else is_cell_empty g p.
Proof.
  unfold is_cell_empty, _remove_agent; cbn.
  rewrite lookup_delete. by destruct (decide (q = p)).
Qed.

Lemma _place_agent_ok g p v :
  is_cell_empty g p = true ->
  exists g', _place_agent g p v = Ok g' /\
    grid_width g' = grid_width g /\ grid_height g' = grid_height g /\
    forall q, is_cell_empty g' q
              = if decide (p = q) then false else is_cell_empty g q.
Proof.
  intros He. unfold _place_agent. rewrite He. eexists; split; [done|].
  repeat split. intros q. unfold is_cell_empty; cbn.
  rewrite lookup_insert. by destruct (decide (p = q)).
Qed.

Lemma in_bounds_dims g g' p :
  grid_width g' = grid_width g -> grid_height g' = grid_height g ->
  in_bounds g p -> in_bounds g' p.
Proof. unfold in_bounds. by intros -> ->. Qed.

(** Moving one vehicle to an in-range cell that is its own or empty. *)
Lemma move_agent_ok g w p :
  in_bounds g p -> (p = pos w \/ is_cell_empty g p = true) ->
  exists g', move_agent g w p = Ok (g', set_pos w p) /\
    grid_width g' = grid_width g /\ grid_height g' = grid_height g /\
    forall q, is_cell_empty g' q
              = if decide (p = q) then false
                else if decide (pos w = q) then true else is_cell_empty g q.
Proof.
  intros Hb Hfree. unfold move_agent.
  assert (Hb' : in_bounds (_remove_agent g (pos w)) p) by done.
  rewrite (torus_adj_in_bounds g p Hb).
  destruct (_place_agent_ok (_remove_agent g (pos w)) p w) as (g' & E & Hw & Hh & Hq).
  { rewrite is_cell_empty_remove. destruct (decide (pos w = p)); [done|].
    by destruct Hfree as [->|]. }
  exists g'. rewrite E. cbn. repeat split; [done..|].
  intros q. rewrite Hq. by rewrite is_cell_empty_remove.
Qed.

Lemma advance_agents_spec vs : forall g,
  (forall w, w ∈ vs -> _next_pos w = Some (nxt w) /\ in_bounds g (nxt w)) ->
  NoDup (nxt <$> vs) ->
  NoDup (pos <$> vs) ->
  (forall w, w ∈ vs -> nxt w = pos w \/ is_cell_empty g (nxt w) = true) ->
  (forall w u, w ∈ vs -> u ∈ vs -> nxt w = pos u -> pos u = pos w) ->
  exists g', advance_agents g vs = Ok (g', commit <$> vs) /\
    grid_width g' = grid_width g /\ grid_height g' = grid_height g /\
    forall q, is_cell_empty g' q
              = if decide (q ∈ nxt <$> vs) then false
                else if decide (q ∈ pos <$> vs) then true
                else is_cell_empty g q.
Proof.
  induction vs as [|w vs IH]; intros g Hn Hdn Hdp Hfree Hown.
  - exists g. repeat split.
  - rewrite fmap_cons in Hdn, Hdp. apply NoDup_cons in Hdn as [Hnw Hdn].
    apply NoDup_cons in Hdp as [Hpw Hdp].
    destruct (Hn w) as [Hsome Hb]; [by left|].
    destruct (move_agent_ok g w (nxt w) Hb) as (g1 & E1 & Hw1 & Hh1 & Hq1).
    { apply Hfree. by left. }
    destruct (IH g1) as (g' & E & Hw' & Hh' & Hq'); [| done | done | | |].
    + intros u Hu. destruct (Hn u) as [? ?]; [by right|].
      split; [done|]. by eapply in_bounds_dims.
    + intros u Hu. destruct (Hfree u) as [|He]; [by right|by left|right].
      rewrite Hq1. rewrite decide_False.
      * rewrite He. by destruct (decide _).
      * intros Heq. apply Hnw. rewrite Heq. by apply list_elem_of_fmap_2.
    + intros u u' Hu Hu'. apply Hown; by right.
    + exists g'. cbn [advance_agents]. unfold VehicleAgent_advance.
      rewrite Hsome, E1. cbn. rewrite E. cbn.
      split; [done|]. split; [congruence|]. split; [congruence|].
      intros q. rewrite Hq', Hq1.
      destruct (decide (q ∈ nxt <$> vs)) as [Hin|Hnin].
      { rewrite decide_True by (by right). done. }
      destruct (decide (q ∈ pos <$> vs)) as [Hip|Hnip].
      { assert (q <> nxt w) as Hne.
        { intros ->. apply list_elem_of_fmap in Hip as (u & Hu1 & Hu2).
          apply Hpw. rewrite <- (Hown w u); [| by left | by right | done].
          by apply list_elem_of_fmap_2. }
        rewrite (decide_False (P := q ∈ nxt w :: _))
          by (intros [?|?]%elem_of_cons; done).
        rewrite (decide_True (P := q ∈ pos w :: _)) by (by right). done. }
      destruct (decide (nxt w = q)) as [<-|Hne1].
      { rewrite (decide_True (P := nxt w ∈ nxt w :: _)) by (by left). done. }
      rewrite (decide_False (P := q ∈ nxt w :: _))
        by (intros [?|?]%elem_of_cons; congruence).
      destruct (decide (pos w = q)) as [<-|Hne2].
      { rewrite (decide_True (P := pos w ∈ pos w :: _)) by (by left). done. }
      rewrite (decide_False (P := q ∈ pos w :: _))
        by (intros [?|?]%elem_of_cons; congruence).
      done.
Qed.

(** ** The invariant of grid and schedule *)

Lemma NoDup_fmap_eq {A B} (f : A -> B) (l : list A) x y :
  NoDup (f <$> l) -> x ∈ l -> y ∈ l -> f x = f y -> x = y.
Proof.
  induction l as [|a l IH]; [by intros _ ?%elem_of_nil|].
  rewrite fmap_cons, NoDup_cons. intros [Ha Hl] Hx Hy Hf.
  apply elem_of_cons in Hx as [->|Hx]; apply elem_of_cons in Hy as [->|Hy].
  - done.
  - exfalso. apply Ha. rewrite Hf. by apply list_elem_of_fmap_2.
  - exfalso. apply Ha. rewrite <- Hf. by apply list_elem_of_fmap_2.
  - by apply IH.
Qed.

Lemma stepped_pos_list g vs ws :
  Forall2 (stepped g) vs ws -> pos <$> ws = pos <$> vs.
Proof.
  induction 1 as [|v w vs ws Hst _ IH]; [done|].
  rewrite !fmap_cons, IH. by rewrite (stepped_pos _ _ _ Hst).
Qed.

Lemma stepped_ready g vs ws :
  grid_inv g vs -> Forall2 (stepped g) vs ws -> Forall (ready g) ws.
Proof.
  intros Hinv Hst. eapply Forall2_Forall_r; [exact Hst|].
  apply Forall_forall. intros v Hv w Hw.
  destruct (inv_speed _ _ Hinv v Hv) as [Hs0 Hs1].
  split.
  - rewrite (stepped_pos _ _ _ Hw). by apply (inv_bounds _ _ Hinv).
  - rewrite (stepped_pos _ _ _ Hw). apply (inv_occ _ _ Hinv).
    by apply list_elem_of_fmap_2.
  - split; [apply (stepped_nonneg _ _ _ Hw)|].
    rewrite (stepped_max _ _ _ Hw).
    etrans; [apply (stepped_gap _ _ _ Hw)|].
    rewrite gap_check_min by done.
    etrans; [apply Z.le_min_l|]. by apply accelerate_le.
  - rewrite (stepped_pos _ _ _ Hw). apply (stepped_clear _ _ _ Hw).
  - apply (stepped_next _ _ _ Hw).
Qed.

Lemma ready_nxt g w : ready g w -> nxt w = destination g w.
Proof. intros Hr. unfold nxt. by rewrite (ready_next _ _ Hr). Qed.

Lemma ready_nxt_bounds g w : ready g w -> in_bounds g (nxt w).
Proof.
  intros Hr. rewrite (ready_nxt g w Hr). unfold destination.
  destruct (ready_bounds _ _ Hr) as [Hx Hy].
  apply torus_adj_bounds; lia.
Qed.

(** The destination is the vehicle's own cell or a cell that is empty. *)
Lemma ready_nxt_free g w :
  ready g w -> nxt w = pos w \/ is_cell_empty g (nxt w) = true.
Proof.
  intros Hr. rewrite (ready_nxt g w Hr). unfold destination.
  destruct (ready_speed _ _ Hr) as [Hs _].
  destruct (decide (speed w = 0)) as [E|Hne].
  - left. rewrite E, Z.add_0_r.
    rewrite <- surjective_pairing.
    apply torus_adj_in_bounds, (ready_bounds _ _ Hr).
  - right. apply (ready_clear _ _ Hr). lia.
Qed.

Lemma ready_nxt_inj g w u :
  ready g w -> ready g u -> nxt w = nxt u -> pos w = pos u.
Proof.
  intros Hw Hu Heq. destruct (decide (pos w = pos u)) as [|Hne]; [done|].
  exfalso. rewrite (ready_nxt g w Hw), (ready_nxt g u Hu) in Heq.
  revert Heq. unfold destination.
  apply destinations_differ.
  - apply (ready_bounds _ _ Hw).
  - apply (ready_bounds _ _ Hu).
  - done.
  - apply (ready_occ _ _ Hw).
  - apply (ready_occ _ _ Hu).
  - apply (ready_speed _ _ Hw).
  - apply (ready_speed _ _ Hu).
  - apply (ready_clear _ _ Hw).
  - apply (ready_clear _ _ Hu).
Qed.

Lemma ready_nxt_own g w u :
  ready g w -> ready g u -> nxt w = pos u -> pos u = pos w.
Proof.
  intros Hw Hu Heq. destruct (ready_nxt_free g w Hw) as [E|E]; [congruence|].
  rewrite Heq, (ready_occ _ _ Hu) in E. done.
Qed.

(** Committing a whole compute phase: no advance() raises, and grid and
    schedule agree again afterwards. *)
Lemma commit_phase g vs ws :
  grid_inv g vs -> Forall2 (stepped g) vs ws ->
  exists g', advance_agents g ws = Ok (g', commit <$> ws) /\
    grid_width g' = grid_width g /\ grid_height g' = grid_height g /\
    grid_inv g' (commit <$> ws).
Proof.
  intros Hinv Hst.
  pose proof (stepped_ready g vs ws Hinv Hst) as Hr.
  rewrite Forall_forall in Hr.
  assert (Hdp : NoDup (pos <$> ws)).
  { rewrite (stepped_pos_list g vs ws Hst). apply (inv_nodup _ _ Hinv). }
  assert (Hdn : NoDup (nxt <$> ws)).
  { apply NoDup_fmap_2_strong; [|by eapply NoDup_fmap_1].
    intros w u Hw Hu Heq. eapply (NoDup_fmap_eq pos); [done..|].
    eapply ready_nxt_inj; eauto. }
  destruct (advance_agents_spec ws g) as (g' & E & Hw' & Hh' & Hq); [|done..| | |].
  - intros w Hw. split; [|by eapply ready_nxt_bounds; eauto].
    rewrite (ready_next _ _ (Hr w Hw)). f_equal. symmetry.
    by apply ready_nxt, Hr.
  - intros w Hw. by apply ready_nxt_free, Hr.
  - intros w u Hw Hu. eapply ready_nxt_own; eauto.
  - exists g'. split; [done|]. split; [done|]. split; [done|].
    assert (Hpos : pos <$> (commit <$> ws) = nxt <$> ws).
    { rewrite <- list_fmap_compose. done. }
    split.
    + intros c [w [-> Hw]]%list_elem_of_fmap. cbn.
      eapply in_bounds_dims; [done..|]. by eapply ready_nxt_bounds; eauto.
    + by rewrite Hpos.
    + intros p. rewrite Hpos, Hq.
      destruct (decide (p ∈ nxt <$> ws)) as [|Hn]; [done|].
      destruct (decide (p ∈ pos <$> ws)) as [|Hp]; [split; done|].
      rewrite (stepped_pos_list g vs ws Hst) in Hp.
      split; [|done]. intros He. exfalso. by apply Hp, (inv_occ _ _ Hinv).
    + intros c [w [-> Hw]]%list_elem_of_fmap. cbn.
      apply (ready_speed _ _ (Hr w Hw)).
Qed.

(** ** The cells of a grid *)

Lemma elem_of_coord_iter g p : p ∈ coord_iter g <-> in_bounds g p.
Proof.
  destruct p as [x y]. unfold coord_iter, in_bounds; cbn. split.
  - intros (x' & Hy & Hx)%list_elem_of_bind.
    apply list_elem_of_bind in Hy as (y' & Hp & Hy).
    apply list_elem_of_ret in Hp. injection Hp as -> ->.
    apply elem_of_seqZ in Hx, Hy. lia.
  - intros [Hx Hy]. apply list_elem_of_bind. exists x. split.
    + apply list_elem_of_bind. exists y. split.
      * by apply list_elem_of_ret.
      * apply elem_of_seqZ. lia.
    + apply elem_of_seqZ. lia.
Qed.

Lemma NoDup_coord_iter g : NoDup (coord_iter g).
Proof.
  unfold coord_iter. apply NoDup_bind; [| |apply NoDup_seqZ].
  - intros x1 x2 p _ _ (y1 & H1 & _)%list_elem_of_bind
      (y2 & H2 & _)%list_elem_of_bind.
    apply list_elem_of_ret in H1, H2. congruence.
  - intros x _. apply NoDup_bind; [| |apply NoDup_seqZ].
    + intros y1 y2 p _ _ H1%list_elem_of_ret H2%list_elem_of_ret. congruence.
    + intros y _. apply NoDup_singleton.
Qed.

Lemma length_bind_const {A B} (f : A -> list B) (l : list A) (n : nat) :
  (forall a, length (f a) = n) -> length (l ≫= f) = (length l * n)%nat.
Proof.
  intros Hf. induction l as [|a l IH]; [done|].
  csimpl. rewrite length_app, Hf, IH. lia.
Qed.

Lemma length_coord_iter g :
  length (coord_iter g)
  = (Z.to_nat (grid_width g) * Z.to_nat (grid_height g))%nat.
Proof.
  unfold coord_iter.
  rewrite (length_bind_const _ _ (Z.to_nat (grid_height g))).
  - by rewrite length_seqZ.
  - intros x. rewrite (length_bind_const _ _ 1%nat); [|done].
    rewrite length_seqZ. lia.
Qed.

(** A grid with fewer vehicles than cells has an empty cell. *)
Lemma empties_nonempty g vs :
  grid_inv g vs -> (length vs < length (coord_iter g))%nat -> empties g <> [].
Proof.
  intros Hinv Hlt Hnil.
  assert (Hsub : coord_iter g ⊆+ pos <$> vs).
  { apply NoDup_submseteq; [apply NoDup_coord_iter|].
    intros p Hp. apply (inv_occ _ _ Hinv).
    destruct (is_cell_empty g p) eqn:E; [|done].
    exfalso. eapply (filter_nil_not_elem_of _ _ p Hnil); done. }
  apply submseteq_length in Hsub. rewrite length_fmap in Hsub. lia.
Qed.

Lemma elem_of_empties g p :
  p ∈ empties g -> in_bounds g p /\ is_cell_empty g p = true.
Proof.
  intros [He Hp]%list_elem_of_filter. split; [|done].
  by apply elem_of_coord_iter.
Qed.

Lemma agents_insert_fresh a l :
  unique_id a ∉ unique_id <$> l -> agents_insert a l = l ++ [a].
Proof.
  induction l as [|b l IH]; [done|].
  rewrite fmap_cons, not_elem_of_cons. intros [Hne Hl]. cbn.
  rewrite decide_False by done. by rewrite IH.
Qed.

(** Putting a new vehicle on an empty, in-range cell. *)
Lemma grid_inv_place g vs p v g' :
  grid_inv g vs -> in_bounds g p -> is_cell_empty g p = true ->
  pos v = p -> 0 <= speed v <= Z.max 0 (max_speed v) ->
  grid_width g' = grid_width g -> grid_height g' = grid_height g ->
  (forall q, is_cell_empty g' q
             = if decide (p = q) then false else is_cell_empty g q) ->
  grid_inv g' (vs ++ [v]).
Proof.
  intros Hinv Hb He Hp Hs Hw Hh Hq. split.
  - intros u [Hu| ->%list_elem_of_singleton]%elem_of_app;
      eapply in_bounds_dims; try done.
    + by apply (inv_bounds _ _ Hinv).
    + by rewrite Hp.
  - rewrite fmap_app. apply NoDup_app. split; [apply (inv_nodup _ _ Hinv)|].
    split; [|apply NoDup_singleton].
    intros q Hq1 ->%list_elem_of_singleton.
    apply (inv_occ _ _ Hinv) in Hq1. congruence.
  - intros q. rewrite Hq, fmap_app, elem_of_app. cbn.
    rewrite list_elem_of_singleton, Hp.
    destruct (decide (p = q)) as [->|Hne].
    + split; [by right|done].
    + rewrite (inv_occ _ _ Hinv). split; [by left|].
      intros [?|?]; [done|congruence].
  - intros u [Hu| ->%list_elem_of_singleton]%elem_of_app; [|done].
    by apply (inv_speed _ _ Hinv).
Qed.

Lemma grid_inv_empty w h : grid_inv (mkGrid w h ∅) [].
Proof.
  split.
  - by intros v ?%elem_of_nil.
  - constructor.
  - intros p. unfold is_cell_empty; cbn. rewrite lookup_empty.
    split; [done|by intros ?%elem_of_nil].
  - by intros v ?%elem_of_nil.
Qed.

Section ModelProofs.
Context {rng : Type} `{RandomSource rng}.

(** ** Construction *)

Lemma position_agent_spec g vs v r :
  grid_inv g vs -> (length vs < length (coord_iter g))%nat ->
  0 <= speed v <= Z.max 0 (max_speed v) ->
  exists g' c r', position_agent g v r = Ok (g', set_pos v c, r') /\
    grid_width g' = grid_width g /\ grid_height g' = grid_height g /\
    grid_inv g' (vs ++ [set_pos v c]).
Proof.
  intros Hinv Hlt Hs. unfold position_agent.
  pose proof (rng_choice_elem (empties g) r) as Hc.
  destruct (rng_choice (empties g) r) as [[c|] r'] eqn:E; cbn in Hc.
  - apply elem_of_empties in Hc as [Hb He].
    destruct (_place_agent_ok g c (set_pos v c) He) as (g' & E' & Hw & Hh & Hq).
    exists g', c, r'. rewrite E'. cbn. split_and!; [done..|].
    by eapply grid_inv_place.
  - exfalso. by eapply empties_nonempty.
Qed.

Lemma NoDup_lookup_not_in_take {A} (l : list A) k x :
  NoDup l -> l !! k = Some x -> x ∉ take k l.
Proof.
  intros Hnd Hk Hin. rewrite <- (take_drop_middle l k x Hk) in Hnd.
  apply NoDup_app in Hnd as (_ & Hd & _). apply (Hd x Hin). by left.
Qed.

Lemma place_vehicles_spec cells ms (n : nat) : forall (k : nat) g s r,
  NoDup cells -> length cells = length (coord_iter g) ->
  grid_inv g (_agents s) ->
  unique_id <$> _agents s = take k cells -> length (_agents s) = k ->
  Forall (fun v => max_speed v = ms) (_agents s) ->
  match place_vehicles cells ms (seqZ (Z.of_nat k) (Z.of_nat n)) g s r with
  | Ok (g', s', r') =>
      (k + n <= length cells)%nat /\ grid_inv g' (_agents s') /\
      grid_width g' = grid_width g /\ grid_height g' = grid_height g /\
      steps s' = steps s /\ length (_agents s') = (k + n)%nat /\
      Forall (fun v => max_speed v = ms) (_agents s')
  | Raise e => (length cells < k + n)%nat /\ e = IndexError
  end.
Proof.
  induction n as [|n IH]; intros k g s r Hnd Hlen Hinv Hids Hk Hms.
  - rewrite seqZ_nil by lia. cbn.
    assert (k <= length cells)%nat.
    { apply (f_equal length) in Hids.
      rewrite length_fmap, length_take in Hids. lia. }
    split_and!; (done || lia).
  - rewrite seqZ_step by lia. cbn [place_vehicles]. rewrite Nat2Z.id.
    destruct (cells !! k) as [[x y]|] eqn:E.
    + pose proof (lookup_lt_Some _ _ _ E) as Hlt.
      destruct (position_agent_spec g (_agents s) (VehicleAgent_init (x, y) ms) r)
        as (g1 & c & r1 & E1 & Hw1 & Hh1 & Hinv1); [done|lia|cbn; lia|].
      rewrite E1. cbn.
      set (a := set_pos (VehicleAgent_init (x, y) ms) c) in *.
      assert (Hadd : agents_insert a (_agents s) = _agents s ++ [a]).
      { apply agents_insert_fresh. rewrite Hids. cbn.
        by apply NoDup_lookup_not_in_take. }
      assert (L1 : length cells = length (coord_iter g1)).
      { rewrite Hlen, !length_coord_iter. congruence. }
      assert (L2 : unique_id <$> _agents s ++ [a] = take (S k) cells).
      { rewrite fmap_app, Hids. cbn. by rewrite (take_S_r _ _ _ E). }
      assert (L3 : length (_agents s ++ [a]) = S k).
      { rewrite length_app, Hk. cbn. lia. }
      assert (L4 : Forall (fun v => max_speed v = ms) (_agents s ++ [a])).
      { apply Forall_app. split; [done|]. by constructor. }
      replace (Z.of_nat k + 1) with (Z.of_nat (S k)) by lia.
      replace (Z.of_nat (S n) - 1) with (Z.of_nat n) by lia.
      specialize (IH (S k) g1 (schedule_add s a) r1 Hnd L1).
      cbn [schedule_add _agents steps] in IH. rewrite Hadd in IH.
      specialize (IH Hinv1 L2 L3 L4).
      destruct (place_vehicles _ _ _ _ _ _) as [[[g' s'] r']|e].
      * destruct IH as (I1 & I2 & I3 & I4 & I5 & I6 & I7).
        split_and!; (done || congruence || lia).
      * destruct IH as [I1 I2]. split; [lia|done].
    + apply lookup_ge_None in E. split; [lia|done].
Qed.

Lemma seqZ_to_nat k n : seqZ k n = seqZ k (Z.of_nat (Z.to_nat n)).
Proof. unfold seqZ. by rewrite Nat2Z.id. Qed.

(** The constructor raises exactly when there are more vehicles than cells,
    and then it is the lookup [cells[vehicle_iter]] that raises. *)
Lemma NaSchTraffic_init_spec h w q ms seed :
  match NaSchTraffic_init h w q ms seed with
  | Ok m =>
      q <= Z.of_nat (length (coord_iter (mkGrid w h ∅))) /\ model_inv m /\
      running m = true /\ steps (schedule m) = 0 /\
      general_max_speed m = ms /\
      length (_agents (schedule m)) = Z.to_nat q /\
      grid_width (grid m) = w /\ grid_height (grid m) = h
  | Raise e =>
      Z.of_nat (length (coord_iter (mkGrid w h ∅))) < q /\ e = IndexError
  end.
Proof.
  unfold NaSchTraffic_init.
  pose proof (rng_shuffle_perm (coord_iter (mkGrid w h ∅)) (rng_seed seed)) as Hp.
  destruct (rng_shuffle _ _) as [cells r0]. cbn in Hp.
  assert (Hnd : NoDup cells) by (rewrite Hp; apply NoDup_coord_iter).
  assert (Hlen : length cells = length (coord_iter (mkGrid w h ∅)))
    by (by rewrite Hp).
  pose proof (place_vehicles_spec cells ms (Z.to_nat q) 0 (mkGrid w h ∅)
                (mkSchedule [] 0) r0 Hnd Hlen (grid_inv_empty w h)
                eq_refl eq_refl (Forall_nil_2 _)) as Hpl.
  rewrite <- seqZ_to_nat in Hpl.
  destruct (place_vehicles _ _ _ _ _ _) as [[[g s] r]|e]; cbn.
  - destruct Hpl as (P1 & P2 & P3 & P4 & P5 & P6 & P7).
    cbn in *. rewrite <- Hp. split_and!; try done; try lia.
    split; cbn; try done; try lia.
    rewrite P5. by rewrite bool_decide_eq_true_2.
  - destruct Hpl as (P1 & P2). rewrite <- Hp. split; [lia|done].
Qed.

(** ** One step of the model *)

Lemma NaSchTraffic_step_spec m :
  model_inv m ->
  exists m', NaSchTraffic_step m = Ok m' /\ model_inv m' /\
    Forall2 (stepped (grid m)) (_agents (schedule m))
      (step_agents (grid m) (_agents (schedule m)) (random m) 0).1.1 /\
    _agents (schedule m')
    = commit <$> (step_agents (grid m) (_agents (schedule m)) (random m) 0).1.1 /\
    steps (schedule m') = steps (schedule m) + 1 /\
    total_speed m' = sum_speeds (_agents (schedule m')) /\
    average_speed m'
    = (if 0 <? get_agent_count (schedule m')
       then (inject_Z (total_speed m') / inject_Z (get_agent_count (schedule m')))%Q
       else 0%Q) /\
    averages m' = averages m ++ [average_speed m'] /\
    running m' = (if steps (schedule m) =? 100 then false else running m) /\
    general_max_speed m' = general_max_speed m /\
    grid_width (grid m') = grid_width (grid m) /\
    grid_height (grid m') = grid_height (grid m) /\
    random m'
    = (step_agents (grid m) (_agents (schedule m)) (random m) 0).1.2.
Proof.
  intros Hinv. unfold NaSchTraffic_step.
  destruct (step_agents_spec (grid m) (_agents (schedule m)) (random m) 0)
    as [Hst Htot].
  { apply Forall_forall. intros v Hv.
    apply (inv_speed _ _ (minv_grid _ Hinv) v Hv). }
  destruct (step_agents _ _ _ _) as [[ws r] t]. cbn [fst snd] in *.
  destruct (commit_phase (grid m) (_agents (schedule m)) ws
              (minv_grid _ Hinv) Hst) as (g' & E & Hw & Hh & Hg).
  rewrite E. cbn.
  assert (Hsum : sum_speeds (commit <$> ws) = sum_speeds ws).
  { unfold sum_speeds. by rewrite <- list_fmap_compose. }
  eexists. split; [done|]. cbn. split_and!; try done.
  - pose proof (minv_steps _ Hinv). pose proof (minv_averages _ Hinv).
    pose proof (minv_running _ Hinv) as Hrun.
    split; cbn; try done; try lia.
    + rewrite Hrun. destruct (steps (schedule m) =? 100) eqn:E1.
      * symmetry. apply bool_decide_eq_false_2. lia.
      * apply bool_decide_ext. lia.
    + rewrite length_app. cbn. lia.
    + apply Forall_fmap. eapply Forall2_Forall_r; [exact Hst|].
      eapply Forall_impl; [apply (minv_max _ Hinv)|].
      intros v Hv w Hw'. cbn. by rewrite (stepped_max _ _ _ Hw').
  - fold (sum_speeds (commit <$> ws)). rewrite Hsum. lia.
Qed.

(** ** Reachable states *)

Lemma reachable_inv h w q ms seed m :
  reachable h w q ms seed m ->
  model_inv m /\ general_max_speed m = ms /\
  length (_agents (schedule m)) = Z.to_nat q /\
  grid_width (grid m) = w /\ grid_height (grid m) = h.
Proof.
  induction 1 as [m Hinit|m m' _ IH Hstep].
  - pose proof (NaSchTraffic_init_spec h w q ms seed) as Hs.
    rewrite Hinit in Hs. by destruct Hs as (_ & ? & _ & _ & ? & ? & ? & ?).
  - destruct IH as (Hinv & Hms & Hlen & Hw & Hh).
    destruct (NaSchTraffic_step_spec m Hinv)
      as (m1 & E & Hinv1 & Hst & Hag & _ & _ & _ & _ & _ & Hms1 & Hw1 & Hh1 & _).
    rewrite Hstep in E. injection E as <-.
    split_and!; try congruence.
    rewrite Hag, length_fmap. rewrite <- Hlen. symmetry.
    by eapply Forall2_length.
Qed.

Lemma steps_n_spec n : forall m,
  model_inv m ->
  exists m', steps_n n m = Ok m' /\ model_inv m' /\
    steps (schedule m') = steps (schedule m) + Z.of_nat n.
Proof.
  induction n as [|n IH]; intros m Hinv.
  - exists m. split_and!; [done..|lia].
  - destruct (NaSchTraffic_step_spec m Hinv)
      as (m1 & E & Hinv1 & _ & _ & Hsteps & _).
    destruct (IH m1 Hinv1) as (m' & E' & Hinv' & Hsteps').
    exists m'. cbn. rewrite E. cbn. split_and!; [done..|lia].
Qed.

Lemma steps_n_reachable h w q ms seed n : forall m m',
  reachable h w q ms seed m -> steps_n n m = Ok m' ->
  reachable h w q ms seed m'.
Proof.
  induction n as [|n IH]; intros m m' Hr; cbn.
  - by intros [= <-].
  - destruct (NaSchTraffic_step m) as [m1|e] eqn:E; cbn; [|done].
    apply IH. by eapply reachable_step.
Qed.

(** The host loop, started with [k] steps to go before schedule.steps is
    101, makes exactly [k] more calls. *)
Lemma run_model_spec (k : nat) : forall fuel calls m,
  model_inv m -> steps (schedule m) = 101 - Z.of_nat k -> (k <= fuel)%nat ->
  exists m', run_model fuel calls m = Some (Ok ((calls + k)%nat, m')) /\
    model_inv m' /\ steps (schedule m') = 101.
Proof.
  induction k as [|k IH]; intros fuel calls m Hinv Hs Hf.
  - exists m. split_and!; [|done|lia].
    destruct fuel; cbn; rewrite (minv_running _ Hinv);
      rewrite bool_decide_eq_false_2 by lia; do 3 f_equal; lia.
  - destruct fuel as [|fuel]; [lia|]. cbn.
    rewrite (minv_running _ Hinv), bool_decide_eq_true_2 by lia.
    destruct (NaSchTraffic_step_spec m Hinv)
      as (m1 & E & Hinv1 & _ & _ & Hsteps & _).
    rewrite E.
    destruct (IH fuel (S calls) m1) as (m' & E' & Hinv' & Hs'); [done|lia|lia|].
    exists m'. rewrite E'. split_and!; [|done..]. do 3 f_equal. lia.
Qed.

End ModelProofs.

(** ** A lone vehicle *)

(** On a grid whose only occupied cell is (x, y), the empty run ahead of
    that cell stops at the cell itself, one lap later. *)
Lemma empty_run_lone g x y n : forall j,
  0 <= x < grid_width g -> 0 <= y < grid_height g ->
  (forall p, is_cell_empty g p = false <-> p = (x, y)) ->
  0 <= j <= grid_width g - 1 ->
  empty_run g (x + j) y n = Z.min (Z.of_nat n) (grid_width g - 1 - j).
Proof.
  induction n as [|n IH]; intros j Hx Hy Hocc Hj.
  - cbn. lia.
  - cbn [empty_run]. rewrite torus_adj_row by lia.
    destruct (decide (j = grid_width g - 1)) as [->|Hne].
    + replace (x + (grid_width g - 1) + 1) with (x + 1 * grid_width g) by lia.
      rewrite Z.mod_add, Z.mod_small by lia.
      replace (is_cell_empty g (x, y)) with false by (symmetry; by apply Hocc).
      lia.
    + assert (Hm : (x + j + 1) mod grid_width g <> x).
      { destruct (decide (x + j + 1 < grid_width g)).
        - rewrite Z.mod_small by lia. lia.
        - replace (x + j + 1)
            with ((x + j + 1 - grid_width g) + 1 * grid_width g) by lia.
          rewrite Z.mod_add, Z.mod_small by lia. lia. }
      destruct (is_cell_empty g ((x + j + 1) mod grid_width g, y)) eqn:E.
      * replace (x + j + 1) with (x + (j + 1)) by lia.
        rewrite IH by (done || lia). lia.
      * apply Hocc in E. congruence.
Qed.

Lemma cells_ahead_lone g v :
  grid_inv g [v] ->
  cells_ahead g v = Z.min (Z.max 0 (max_speed v)) (grid_width g - 1).
Proof.
  intros Hinv. unfold cells_ahead.
  destruct (inv_bounds _ _ Hinv v) as [Hx Hy]; [by left|].
  destruct (pos v) as [x y] eqn:Hp; cbn in *.
  rewrite <- (Z.add_0_r x) at 1. rewrite empty_run_lone; [lia|done..| |lia].
  intros p. rewrite (inv_occ _ _ Hinv). cbn. rewrite Hp.
  apply list_elem_of_singleton.
Qed.

(** ** The row of a vehicle *)

Lemma destination_row g v :
  in_bounds g (pos v) -> (destination g v).2 = (pos v).2.
Proof.
  intros [Hx Hy]. unfold destination. by rewrite torus_adj_row by lia.
Qed.

(** The scan reads cells of the vehicle's row only. *)
Lemma gap_scan_row g g' x y spd ds : forall k,
  0 < grid_width g -> 0 <= y < grid_height g ->
  grid_width g' = grid_width g -> grid_height g' = grid_height g ->
  (forall x', is_cell_empty g' (x', y) = is_cell_empty g (x', y)) ->
  gap_scan g' x y spd ds k = gap_scan g x y spd ds k.
Proof.
  induction ds as [|d ds IH]; intros k Hw Hy Hw' Hh' Hrow; [done|].
  cbn. rewrite !torus_adj_row by lia. rewrite Hw', Hrow.
  destruct (is_cell_empty g _); [|done].
  destruct (k + 1 =? spd); [done|]. by apply IH.
Qed.

Lemma decelerate_row g g' v :
  in_bounds g (pos v) ->
  grid_width g' = grid_width g -> grid_height g' = grid_height g ->
  (forall x', is_cell_empty g' (x', (pos v).2) = is_cell_empty g (x', (pos v).2)) ->
  decelerate g' v = decelerate g v.
Proof.
  intros [Hx Hy] Hw Hh Hrow. unfold decelerate.
  destruct (pos v) as [x y]; cbn in *. f_equal.
  apply gap_scan_row; (done || lia).
Qed.

(** ** Lemmas for the claims *)

Lemma NoDup_pairwise_distinct vs :
  NoDup (pos <$> vs) -> pairwise_distinct vs.
Proof.
  intros Hnd i j v u Hi Hj Hij Heq. apply Hij.
  eapply (NoDup_lookup _ i j (pos v) Hnd).
  - by rewrite list_lookup_fmap, Hi.
  - by rewrite list_lookup_fmap, Hj, Heq.
Qed.

Section ClaimLemmas.
Context {rng : Type} `{RandomSource rng}.

Lemma step_agents_draws g vs : forall r t,
  (step_agents g vs r t).1.1
  = zip_with (compute g) vs (draws (length vs) r).
Proof.
  induction vs as [|v vs IH]; intros r t; [done|].
  cbn [step_agents length draws zip_with].
  rewrite VehicleAgent_step_eq. cbv beta iota zeta.
  match goal with
  | |- context [step_agents g vs ?r' ?t'] =>
      specialize (IH r' t'); destruct (step_agents g vs r' t') as [[ws r''] t'']
  end.
  cbn in *. by rewrite IH.
Qed.

Lemma step_rows (m m' : NaSchTraffic rng) :
  model_inv m -> NaSchTraffic_step m = Ok m' ->
  rows (_agents (schedule m')) = rows (_agents (schedule m)).
Proof.
  intros Hinv Hstep.
  destruct (NaSchTraffic_step_spec m Hinv) as (m1 & E & _ & Hst & Hag & _).
  rewrite Hstep in E. injection E as <-. rewrite Hag.
  pose proof (inv_bounds _ _ (minv_grid _ Hinv)) as Hb.
  revert Hst Hb.
  generalize ((step_agents (grid m) (_agents (schedule m)) (random m) 0).1.1).
  generalize (_agents (schedule m)).
  intros vs ws Hst. induction Hst as [|v w vs ws Hvw _ IH]; intros Hb; [done|].
  unfold rows in *. rewrite !fmap_cons. f_equal.
  - cbn. rewrite (stepped_id _ _ _ Hvw). f_equal.
    unfold nxt. rewrite (stepped_next _ _ _ Hvw).
    rewrite destination_row; rewrite (stepped_pos _ _ _ Hvw); [done|].
    apply Hb. by left.
  - apply IH. intros u Hu. apply Hb. by right.
Qed.

Lemma steps_n_rows n : forall (m m' : NaSchTraffic rng),
  model_inv m -> steps_n n m = Ok m' ->
  rows (_agents (schedule m')) = rows (_agents (schedule m)).
Proof.
  induction n as [|n IH]; intros m m' Hinv; cbn.
  - by intros [= <-].
  - destruct (NaSchTraffic_step_spec m Hinv) as (m1 & E & Hinv1 & _).
    rewrite E. cbn. intros Hn. rewrite (IH m1 m' Hinv1 Hn).
    by apply step_rows.
Qed.

Lemma speed_commit_compute g v u :
  speed (commit (compute g v u))
  = speed (randomise u (decelerate g (accelerate v))).
Proof.
  unfold compute.
  by destruct (movement_frame g (randomise u (decelerate g (accelerate v))))
    as (_ & _ & _ & <- & _).
Qed.

Lemma speeds_commit_compute g vs : forall us,
  speed ∘ commit <$> zip_with (compute g) vs us
  = zip_with (fun v u => speed (randomise u (decelerate g (accelerate v))))
      vs us.
Proof.
  induction vs as [|v vs IH]; intros [|u us]; try done.
  cbn [zip_with]. rewrite fmap_cons. f_equal; [|apply IH].
  apply speed_commit_compute.
Qed.

(** A braking-free step of the only vehicle of a lane wider than its
    maximum speed. *)
Lemma lone_vehicle_step h w ms seed (m : NaSchTraffic rng) v :
  reachable h w 1 ms seed m -> _agents (schedule m) = [v] -> ms < w ->
  no_braking 1 (random m) ->
  exists m' v', NaSchTraffic_step m = Ok m' /\
    reachable h w 1 ms seed m' /\ _agents (schedule m') = [v'] /\
    speed v' = (if speed v <? max_speed v then speed v + 1 else speed v) /\
    pos v' = (((pos v).1 + speed v') mod w, (pos v).2) /\
    max_speed v' = max_speed v /\
    random m' = (rng_random (random m)).2.
Proof.
  intros Hr Hv Hw Hnb.
  destruct (reachable_inv _ _ _ _ _ _ Hr) as (Hinv & Hms & _ & Hgw & Hgh).
  destruct (NaSchTraffic_step_spec m Hinv)
    as (m' & E & _ & _ & Hag & _ & _ & _ & _ & _ & _ & _ & _ & Hrand).
  assert (Hr' : reachable h w 1 ms seed m') by (by eapply reachable_step).
  rewrite step_agents_draws, Hv in Hag. cbn in Hag.
  rewrite Hv in Hrand. cbn in Hrand. rewrite VehicleAgent_step_eq in Hrand.
  cbn in Hrand.
  apply Forall_cons in Hnb as [Hu _].
  unfold compute in Hag. rewrite (randomise_no_brake _ _ Hu) in Hag.
  pose proof (minv_grid _ Hinv) as Hg. rewrite Hv in Hg.
  destruct (inv_speed _ _ Hg v) as [Hs0 Hs1]; [by left|].
  destruct (inv_bounds _ _ Hg v) as [Hx Hy]; [by left|].
  pose proof (minv_max _ Hinv) as Hmax. rewrite Hv in Hmax.
  apply Forall_cons in Hmax as [Hmax _]. rewrite Hms in Hmax.
  assert (Hspeed : speed (decelerate (grid m) (accelerate v))
                   = (if speed v <? max_speed v then speed v + 1 else speed v)).
  { rewrite gap_check_min by done. rewrite cells_ahead_lone by done.
    unfold accelerate. destruct (speed v <? max_speed v) eqn:El; cbn; lia. }
  destruct (decelerate_frame (grid m) (accelerate v)) as (_ & D2 & D3).
  destruct (accelerate_frame v) as (_ & A2 & A3).
  destruct (movement_frame (grid m) (decelerate (grid m) (accelerate v)))
    as (_ & M2 & M3 & M4 & M5).
  eexists m', _. split_and!; [done|done|exact Hag|..|done].
  - cbn. by rewrite M4.
  - cbn. unfold nxt. rewrite M5. unfold destination.
    rewrite D2, A2, Hspeed, M4, Hspeed.
    rewrite torus_adj_row by lia. by rewrite Hgw.
  - cbn. by rewrite M3, D3, A3.
Qed.

End ClaimLemmas.

(** * The claims *)

Lemma run_lcg_reachable h w q ms seed n m :
  run_lcg h w q ms seed n = Ok m -> reachable h w q ms seed m.
Proof.
  unfold run_lcg.
  destruct (NaSchTraffic_init h w q ms seed) as [m0|e] eqn:E; [|done].
  cbn. apply steps_n_reachable. by apply reachable_init.
Qed.

(** C1: in every step, the speed a vehicle has after the gap check is the
    minimum of its speed after acceleration and the number of consecutive
    empty cells ahead of it (first cell scanned one ahead, at most max_speed
    cells, with wraparound); so it never exceeds that number of cells. *)
Theorem gap_check_speed {rng : Type} `{RandomSource rng} h w q ms seed
    (m : NaSchTraffic rng) v :
  reachable h w q ms seed m -> v ∈ _agents (schedule m) ->
  speed (decelerate (grid m) (accelerate v))
  = Z.min (speed (accelerate v)) (cells_ahead (grid m) v) /\
  speed (decelerate (grid m) (accelerate v)) <= cells_ahead (grid m) v /\
  forall r t,
    (VehicleAgent_step (grid m) v r t).1.1
    = movement (grid m)
        (randomise (rng_random r).1 (decelerate (grid m) (accelerate v))).
Proof.
  intros Hr Hv.
  destruct (reachable_inv _ _ _ _ _ _ Hr) as (Hinv & _).
  destruct (inv_speed _ _ (minv_grid _ Hinv) v Hv) as [Hs _].
  split_and!.
  - by apply gap_check_min.
  - rewrite gap_check_min by done. apply Z.le_min_r.
  - intros r t. by rewrite VehicleAgent_step_eq.
Qed.

Lemma gap_check_speed_witness :
  let m := the_model (run_lcg 1 60 5 4 42 3) in
  let v := first_vehicle m in
  speed (decelerate (grid m) (accelerate v))
  = Z.min (speed (accelerate v)) (cells_ahead (grid m) v).
Proof.
  intros m v.
  assert (Hr : reachable 1 60 5 4 42 m).
  { apply (run_lcg_reachable 1 60 5 4 42 3). vm_compute. reflexivity. }
  assert (Hv : v ∈ _agents (schedule m)).
  { vm_compute. left. }
  exact (proj1 (gap_check_speed 1 60 5 4 42 m v Hr Hv)).
Defined.

(** C2: in every reachable state any two distinct vehicles stand on distinct
    cells; a step from such a state raises no exception, and the positions
    it commits, which are the destinations computed before any vehicle
    moved, are again pairwise distinct. *)
Theorem positions_distinct {rng : Type} `{RandomSource rng} h w q ms seed
    (m : NaSchTraffic rng) :
  reachable h w q ms seed m ->
  pairwise_distinct (_agents (schedule m)) /\
  exists m', NaSchTraffic_step m = Ok m' /\
    pos <$> _agents (schedule m')
    = nxt <$> zip_with (compute (grid m)) (_agents (schedule m))
                (draws (length (_agents (schedule m))) (random m)) /\
    pairwise_distinct (_agents (schedule m')).
Proof.
  intros Hr.
  destruct (reachable_inv _ _ _ _ _ _ Hr) as (Hinv & _).
  split; [apply NoDup_pairwise_distinct, (inv_nodup _ _ (minv_grid _ Hinv))|].
  destruct (NaSchTraffic_step_spec m Hinv) as (m' & E & Hinv' & _ & Hag & _).
  exists m'. split_and!; [done| |].
  - rewrite Hag, step_agents_draws, <- list_fmap_compose. done.
  - apply NoDup_pairwise_distinct, (inv_nodup _ _ (minv_grid _ Hinv')).
Qed.

Lemma positions_distinct_witness :
  pairwise_distinct (_agents (schedule (the_model (run_lcg 1 60 5 4 42 3)))).
Proof.
  apply (positions_distinct 1 60 5 4 42).
  apply (run_lcg_reachable 1 60 5 4 42 3). vm_compute. reflexivity.
Defined.

(** C3, as the code has it: with a max speed that is not negative, every
    vehicle of every reachable state has 0 <= speed <= max_speed, and so it
    has after each phase of its step: after acceleration, after the gap
    check (which does not raise the speed), after randomisation whatever
    value is drawn, and after the movement phase. *)
Theorem speed_bounds {rng : Type} `{RandomSource rng} h w q ms seed
    (m : NaSchTraffic rng) v u :
  0 <= ms -> reachable h w q ms seed m -> v ∈ _agents (schedule m) ->
  let a := accelerate v in
  let d := decelerate (grid m) a in
  let b := randomise u d in
  0 <= speed v <= max_speed v /\
  0 <= speed a <= max_speed a /\
  (0 <= speed d <= max_speed d /\ speed d <= speed a) /\
  0 <= speed b <= max_speed b /\
  0 <= speed (movement (grid m) b) <= max_speed (movement (grid m) b).
Proof.
  intros Hms Hr Hv a d b.
  destruct (reachable_inv _ _ _ _ _ _ Hr) as (Hinv & Hgm & _).
  destruct (inv_speed _ _ (minv_grid _ Hinv) v Hv) as [Hs0 Hs1].
  pose proof (minv_max _ Hinv) as Hmax. rewrite Forall_forall in Hmax.
  specialize (Hmax v Hv). rewrite Hgm in Hmax.
  destruct (accelerate_frame v) as (_ & _ & A3).
  destruct (decelerate_frame (grid m) a) as (_ & _ & D3).
  destruct (randomise_frame u d) as (_ & _ & R3).
  destruct (movement_frame (grid m) b) as (_ & _ & M3 & M4 & _).
  pose proof (speed_accelerate_cases v Hs0) as [Ha0 _].
  pose proof (accelerate_le v Hs1) as Ha1.
  pose proof (gap_check_nonneg (grid m) v Hs0) as Hd0.
  pose proof (gap_check_min (grid m) v Hs0) as Hd1.
  pose proof (randomise_speed u d Hd0) as Hb.
  fold a in A3, Ha0, Ha1, Hd1. fold d in D3, Hd0, Hd1, Hb. fold b in R3, Hb.
  rewrite M3, M4, R3, D3, A3. lia.
Qed.

Lemma speed_bounds_witness :
  let m := the_model (run_lcg 1 60 5 4 42 3) in
  let v := first_vehicle m in
  0 <= speed v <= max_speed v.
Proof.
  intros m v.
  assert (Hr : reachable 1 60 5 4 42 m).
  { apply (run_lcg_reachable 1 60 5 4 42 3). vm_compute. reflexivity. }
  assert (Hv : v ∈ _agents (schedule m)).
  { vm_compute. left. }
  assert (Hms : 0 <= 4) by lia.
  exact (proj1 (speed_bounds 1 60 5 4 42 m v (1 # 2) Hms Hr Hv)).
Defined.

(** C3 does not hold as stated: __init__ accepts a negative max speed, and
    then every vehicle has speed 0, which is above its max_speed, from the
    constructed state on. *)
Lemma speed_above_negative_max_speed :
  match run_lcg 1 60 5 (-1) 42 0, run_lcg 1 60 5 (-1) 42 3 with
  | Ok m0, Ok m3 =>
      (fun v => (speed v, max_speed v)) <$> _agents (schedule m0)
      = replicate 5 (0, -1) /\
      (fun v => (speed v, max_speed v)) <$> _agents (schedule m3)
      = replicate 5 (0, -1) /\
      ~ (0 <= speed (first_vehicle m3) <= max_speed (first_vehicle m3))
  | _, _ => False
  end.
Proof. vm_compute. split_and!; try reflexivity. intros [_ Hle]. by apply Hle. Qed.

(** C4, as the code has it: the constructor raises exactly when the
    requested number of vehicles exceeds the number of cells, which is
    width * height and is zero when a dimension is not positive; the
    exception is the IndexError of [cells[vehicle_iter]], raised before
    [running] is set.  In every other case, whatever the max speed, it
    returns a model with [running] true. *)
Theorem init_fails_iff_too_many_vehicles {rng : Type} `{RandomSource rng}
    h w q ms seed :
  match NaSchTraffic_init (rng := rng) h w q ms seed with
  | Ok m =>
      q <= Z.max 0 w * Z.max 0 h /\ running m = true /\
      steps (schedule m) = 0 /\ general_max_speed m = ms
  | Raise e => Z.max 0 w * Z.max 0 h < q /\ e = IndexError
  end.
Proof.
  pose proof (NaSchTraffic_init_spec h w q ms seed) as Hs.
  rewrite length_coord_iter in Hs. cbn in Hs.
  destruct (NaSchTraffic_init h w q ms seed) as [m|e].
  - destruct Hs as (Hq & _ & Hrun & Hst & Hms & _). split_and!; [lia|done..].
  - destruct Hs as (Hq & He). split; [lia|done].
Qed.

(** C4 does not hold as stated: a max speed of 0 is accepted, and so is a
    width of 0 when no vehicle is requested; both constructions return a
    model whose [running] is true. *)
Lemma init_accepts_invalid_configuration :
  match NaSchTraffic_init (rng := Z) 1 60 5 0 42 with
  | Ok m => running m = true /\ general_max_speed m = 0
  | Raise _ => False
  end /\
  match NaSchTraffic_init (rng := Z) 1 0 0 4 42 with
  | Ok m => running m = true /\ width m = 0
  | Raise _ => False
  end.
Proof. vm_compute. by split_and!. Qed.

(** C5, as the code has it: step() never reads the running flag.  Called in
    a reachable state whose flag is false it does what it always does: all
    vehicles compute and commit, one value is appended to [averages] and
    schedule.steps grows by one; the flag stays false. *)
Theorem step_runs_when_not_running {rng : Type} `{RandomSource rng}
    h w q ms seed (m : NaSchTraffic rng) :
  reachable h w q ms seed m -> running m = false ->
  exists m', NaSchTraffic_step m = Ok m' /\ running m' = false /\
    steps (schedule m') = steps (schedule m) + 1 /\
    averages m' = averages m ++ [average_speed m'] /\
    _agents (schedule m')
    = commit <$> zip_with (compute (grid m)) (_agents (schedule m))
                   (draws (length (_agents (schedule m))) (random m)).
Proof.
  intros Hr Hrun.
  destruct (reachable_inv _ _ _ _ _ _ Hr) as (Hinv & _).
  destruct (NaSchTraffic_step_spec m Hinv)
    as (m' & E & _ & _ & Hag & Hst & _ & _ & Hav & Hrun' & _).
  exists m'. split_and!; [done| |done|done|].
  - rewrite Hrun', Hrun. by destruct (_ =? _).
  - by rewrite Hag, step_agents_draws.
Qed.

Lemma step_runs_when_not_running_witness :
  let m := the_model (run_lcg 1 60 5 4 42 101) in
  exists m', NaSchTraffic_step m = Ok m' /\ running m' = false /\
             steps (schedule m') = steps (schedule m) + 1.
Proof.
  intros m.
  assert (Hr : reachable 1 60 5 4 42 m).
  { apply (run_lcg_reachable 1 60 5 4 42 101). vm_compute. reflexivity. }
  assert (Hrun : running m = false) by (vm_compute; reflexivity).
  destruct (step_runs_when_not_running 1 60 5 4 42 m Hr Hrun)
    as (m' & E & Hf & Hs & _).
  exists m'. by split_and!.
Defined.

(** C5 does not hold as stated: after 101 steps the flag is false, and the
    102nd call of step() neither raises nor leaves the model alone: it moves
    the vehicles, extends [averages] and counts a step. *)
Lemma step_not_rejected_when_not_running :
  match run_lcg 1 60 5 4 42 101 with
  | Ok m =>
      running m = false /\ steps (schedule m) = 101 /\
      length (averages m) = 101%nat /\
      match NaSchTraffic_step m with
      | Ok m' =>
          steps (schedule m') = 102 /\ length (averages m') = 102%nat /\
          track (_agents (schedule m)) <> track (_agents (schedule m'))
      | Raise _ => False
      end
  | Raise _ => False
  end.
Proof. vm_compute. split_and!; try reflexivity. discriminate. Qed.

(** C6, what the code does: the flag is still true when schedule.steps has
    reached 100; it is cleared at the start of the next call, which runs to
    its end.  The host loop therefore makes 101 calls of step(). *)
Theorem host_loop_makes_101_calls {rng : Type} `{RandomSource rng}
    h w q ms seed (m0 : NaSchTraffic rng) fuel :
  NaSchTraffic_init h w q ms seed = Ok m0 -> (101 <= fuel)%nat ->
  (exists m, steps_n 100 m0 = Ok m /\ steps (schedule m) = 100 /\
             running m = true) /\
  (exists m, run_model fuel 0 m0 = Some (Ok (101%nat, m)) /\
             steps (schedule m) = 101 /\ length (averages m) = 101%nat /\
             running m = false).
Proof.
  intros Hinit Hfuel.
  pose proof (NaSchTraffic_init_spec h w q ms seed) as Hs.
  rewrite Hinit in Hs. destruct Hs as (_ & Hinv & _ & Hst & _).
  split.
  - destruct (steps_n_spec 100 m0 Hinv) as (m & E & Hinv' & Hst').
    exists m. split_and!; [done|lia|].
    rewrite (minv_running _ Hinv'). apply bool_decide_eq_true_2. lia.
  - destruct (run_model_spec 101 fuel 0%nat m0 Hinv) as (m & E & Hinv' & Hst');
      [lia|done|].
    exists m. split_and!; [done|done| |].
    + pose proof (minv_averages _ Hinv'). lia.
    + rewrite (minv_running _ Hinv'). apply bool_decide_eq_false_2. lia.
Qed.

Lemma host_loop_makes_101_calls_witness :
  exists m, run_model 200 0 (the_model (run_lcg 1 60 5 4 42 0))
            = Some (Ok (101%nat, m)) /\ steps (schedule m) = 101.
Proof.
  assert (Hi : NaSchTraffic_init 1 60 5 4 42
               = Ok (the_model (run_lcg 1 60 5 4 42 0))).
  { vm_compute. reflexivity. }
  assert (Hf : (101 <= 200)%nat) by lia.
  destruct (host_loop_makes_101_calls 1 60 5 4 42 _ 200%nat Hi Hf)
    as (_ & m & E & Hs & _).
  exists m. by split.
Defined.

(** C7, as the code has it: on a lane that is wider than the max speed and
    holds exactly one vehicle, none of the cells the gap check scans is the
    vehicle's own, so a step without random braking raises the speed by 1
    until it is max_speed; and on a lane of width 60 with max speed 4, from
    position 0 and speed 0, three such steps give the speeds 1, 2, 3 and the
    positions 1, 3, 6. *)
Theorem lone_vehicle_accelerates {rng : Type} `{RandomSource rng} :
  (forall h w ms seed (m : NaSchTraffic rng) v,
     reachable h w 1 ms seed m -> _agents (schedule m) = [v] -> ms < w ->
     (forall d, 1 <= d <= max_speed v ->
        torus_adj (grid m) ((pos v).1 + d, (pos v).2) <> pos v) /\
     (no_braking 1 (random m) ->
      exists m' v', NaSchTraffic_step m = Ok m' /\
        _agents (schedule m') = [v'] /\
        speed v' = if speed v <? max_speed v then speed v + 1 else speed v)) /\
  (forall seed (m : NaSchTraffic rng),
     reachable 1 60 1 4 seed m -> track (_agents (schedule m)) = [((0, 0), 0)] ->
     no_braking 3 (random m) ->
     exists m1 m2 m3,
       NaSchTraffic_step m = Ok m1 /\ NaSchTraffic_step m1 = Ok m2 /\
       NaSchTraffic_step m2 = Ok m3 /\
       track (_agents (schedule m1)) = [((1, 0), 1)] /\
       track (_agents (schedule m2)) = [((3, 0), 2)] /\
       track (_agents (schedule m3)) = [((6, 0), 3)]).
Proof.
  split.
  - intros h w ms seed m v Hr Hv Hw. split.
    + intros d Hd Heq.
      destruct (reachable_inv _ _ _ _ _ _ Hr) as (Hinv & Hms & _ & Hgw & _).
      pose proof (minv_grid _ Hinv) as Hg. rewrite Hv in Hg.
      destruct (inv_bounds _ _ Hg v) as [Hx Hy]; [by left|].
      pose proof (minv_max _ Hinv) as Hmax. rewrite Hv in Hmax.
      apply Forall_cons in Hmax as [Hmax _].
      rewrite torus_adj_row in Heq by lia.
      apply (f_equal fst) in Heq. cbn in Heq. revert Heq.
      destruct (decide ((pos v).1 + d < grid_width (grid m))).
      * rewrite Z.mod_small by lia. lia.
      * replace ((pos v).1 + d)
          with (((pos v).1 + d - grid_width (grid m)) + 1 * grid_width (grid m))
          by lia.
        rewrite Z.mod_add, Z.mod_small by lia. lia.
    + intros Hnb.
      destruct (lone_vehicle_step h w ms seed m v Hr Hv Hw Hnb)
        as (m' & v' & E & _ & Hv' & Hs & _).
      by exists m', v'.
  - intros seed m Hr Ht Hnb.
    destruct (_agents (schedule m)) as [|v [|? ?]] eqn:Hv; try done.
    injection Ht as Hp Hs.
    unfold no_braking in Hnb. cbn [draws] in Hnb.
    apply Forall_cons in Hnb as [U1 Hnb].
    apply Forall_cons in Hnb as [U2 Hnb].
    apply Forall_cons in Hnb as [U3 _].
    assert (Hmax : max_speed v = 4).
    { destruct (reachable_inv _ _ _ _ _ _ Hr) as (Hinv & Hms & _).
      pose proof (minv_max _ Hinv) as Hmax. rewrite Hv in Hmax.
      apply Forall_cons in Hmax as [Hmax _]. congruence. }
    destruct (lone_vehicle_step 1 60 4 seed m v Hr Hv)
      as (m1 & v1 & E1 & Hr1 & Hv1 & Hs1 & Hp1 & Hm1 & Hn1);
      [lia|by repeat constructor|].
    rewrite Hs, Hp, Hmax in *. cbn in Hs1. rewrite Hs1 in Hp1. cbn in Hp1.
    destruct (lone_vehicle_step 1 60 4 seed m1 v1 Hr1 Hv1)
      as (m2 & v2 & E2 & Hr2 & Hv2 & Hs2 & Hp2 & Hm2 & Hn2);
      [lia|rewrite Hn1; by repeat constructor|].
    rewrite Hs1, Hp1, Hm1 in *. cbn in Hs2. rewrite Hs2 in Hp2. cbn in Hp2.
    destruct (lone_vehicle_step 1 60 4 seed m2 v2 Hr2 Hv2)
      as (m3 & v3 & E3 & Hr3 & Hv3 & Hs3 & Hp3 & Hm3 & Hn3);
      [lia|rewrite Hn2, Hn1; by repeat constructor|].
    rewrite Hs2, Hp2, Hm2 in *. cbn in Hs3. rewrite Hs3 in Hp3. cbn in Hp3.
    exists m1, m2, m3. rewrite Hv1, Hv2, Hv3. unfold track. cbn.
    rewrite Hs1, Hp1, Hs2, Hp2, Hs3, Hp3. done.
Qed.

Lemma lone_vehicle_accelerates_witness :
  exists m1 m2 m3,
    NaSchTraffic_step (the_model (run_lcg 1 60 1 4 70 0)) = Ok m1 /\
    NaSchTraffic_step m1 = Ok m2 /\ NaSchTraffic_step m2 = Ok m3 /\
    track (_agents (schedule m1)) = [((1, 0), 1)] /\
    track (_agents (schedule m2)) = [((3, 0), 2)] /\
    track (_agents (schedule m3)) = [((6, 0), 3)].
Proof.
  apply (proj2 lone_vehicle_accelerates 70).
  - apply (run_lcg_reachable 1 60 1 4 70 0). vm_compute. reflexivity.
  - vm_compute. reflexivity.
  - unfold no_braking. vm_compute. repeat constructor.
Defined.

(** C7 does not hold as stated: on a lane of width 3 with max speed 4 the
    third cell scanned is the vehicle's own cell, which counts as occupied;
    at speed 2, without braking, the speed stays 2. *)
Lemma lone_vehicle_narrow_lane :
  match run_lcg 1 3 1 4 7 2 with
  | Ok m =>
      let v := first_vehicle m in
      _agents (schedule m) = [v] /\ speed v = 2 /\ max_speed v = 4 /\
      no_braking 1 (random m) /\
      torus_adj (grid m) ((pos v).1 + 3, (pos v).2) = pos v /\
      is_cell_empty (grid m) (torus_adj (grid m) ((pos v).1 + 3, (pos v).2))
      = false /\
      match NaSchTraffic_step m with
      | Ok m' => speed <$> _agents (schedule m') = [2]
      | Raise _ => False
      end
  | Raise _ => False
  end.
Proof. unfold no_braking. vm_compute. split_and!; try reflexivity. repeat constructor. Qed.

(** C8: a step from a reachable state raises no exception; afterwards
    [total_speed] is the sum of the speeds the vehicles have after
    randomisation in that step, the number of vehicles is still the
    vehicle_quantity of the configuration, [average_speed] is [total_speed]
    divided by that number of vehicles, or 0 when there is none, and it is
    the value appended to [averages].  With no vehicle requested the
    recorded average is 0.  (The quotient is kept as an exact rational.) *)
Theorem average_speed_after_step {rng : Type} `{RandomSource rng}
    h w q ms seed (m : NaSchTraffic rng) :
  reachable h w q ms seed m ->
  exists m', NaSchTraffic_step m = Ok m' /\
    length (_agents (schedule m')) = Z.to_nat q /\
    total_speed m'
    = foldr Z.add 0
        (zip_with (fun v u => speed (randomise u (decelerate (grid m) (accelerate v))))
           (_agents (schedule m))
           (draws (length (_agents (schedule m))) (random m))) /\
    total_speed m' = foldr Z.add 0 (speed <$> _agents (schedule m')) /\
    average_speed m'
    = match length (_agents (schedule m')) with
      | O => 0%Q
      | S _ =>
          (inject_Z (total_speed m')
           / inject_Z (Z.of_nat (length (_agents (schedule m')))))%Q
      end /\
    averages m' = averages m ++ [average_speed m'] /\
    (q <= 0 -> average_speed m' = 0%Q).
Proof.
  intros Hr.
  destruct (reachable_inv _ _ _ _ _ _ Hr) as (Hinv & _ & Hlen & _).
  destruct (NaSchTraffic_step_spec m Hinv)
    as (m' & E & _ & Hst & Hag & _ & Htot & Havg & Hav & _).
  assert (Hlen' : length (_agents (schedule m')) = Z.to_nat q).
  { rewrite Hag, length_fmap. rewrite <- Hlen. symmetry.
    by eapply Forall2_length. }
  assert (Havg' : average_speed m'
                  = match length (_agents (schedule m')) with
                    | O => 0%Q
                    | S _ =>
                        (inject_Z (total_speed m')
                         / inject_Z (Z.of_nat (length (_agents (schedule m')))))%Q
                    end).
  { rewrite Havg. unfold get_agent_count.
    destruct (length (_agents (schedule m'))) as [|n] eqn:El; [done|].
    destruct (0 <? Z.of_nat (S n)) eqn:E0; [done|].
    apply Z.ltb_ge in E0. lia. }
  exists m'. split_and!; try done.
  - rewrite Htot, Hag, step_agents_draws. unfold sum_speeds.
    rewrite <- list_fmap_compose. f_equal. apply speeds_commit_compute.
  - intros Hq. rewrite Havg', Hlen'. by replace (Z.to_nat q) with O by lia.
Qed.

Lemma average_speed_after_step_witness :
  let m := the_model (run_lcg 1 60 5 4 42 2) in
  exists m', NaSchTraffic_step m = Ok m' /\
    length (_agents (schedule m')) = 5%nat /\ total_speed m' = 11 /\
    average_speed m' = (11 # 5)%Q.
Proof.
  intros m.
  assert (Hr : reachable 1 60 5 4 42 m).
  { apply (run_lcg_reachable 1 60 5 4 42 2). vm_compute. reflexivity. }
  destruct (average_speed_after_step 1 60 5 4 42 m Hr)
    as (m' & E & Hlen & Htot & _ & Havg & _).
  assert (Hl : length (_agents (schedule m')) = 5%nat) by exact Hlen.
  assert (Ht : total_speed m' = 11).
  { rewrite Htot. vm_compute. reflexivity. }
  exists m'. split; [exact E|]. split; [exact Hl|]. split; [exact Ht|].
  rewrite Havg, Hl, Ht. reflexivity.
Defined.

(** C10: whatever the height of the grid, every cell the gap check tests
    lies in the vehicle's own row (so its result is the same on any grid
    that agrees with this one on that row), the destination the movement
    phase computes lies in that row, and after any number of steps every
    vehicle is still in the row where the constructor put it. *)
Theorem y_coordinate_fixed {rng : Type} `{RandomSource rng} h w q ms seed n
    (m0 m : NaSchTraffic rng) :
  NaSchTraffic_init h w q ms seed = Ok m0 -> steps_n n m0 = Ok m ->
  rows (_agents (schedule m)) = rows (_agents (schedule m0)) /\
  forall v, v ∈ _agents (schedule m) ->
    (forall d, (torus_adj (grid m) ((pos v).1 + d, (pos v).2)).2 = (pos v).2) /\
    (forall g', grid_width g' = grid_width (grid m) ->
                grid_height g' = grid_height (grid m) ->
                (forall x', is_cell_empty g' (x', (pos v).2)
                            = is_cell_empty (grid m) (x', (pos v).2)) ->
                decelerate g' (accelerate v) = decelerate (grid m) (accelerate v)) /\
    (forall u, (nxt (compute (grid m) v u)).2 = (pos v).2).
Proof.
  intros Hinit Hn.
  assert (Hr0 : reachable h w q ms seed m0) by (by apply reachable_init).
  assert (Hr : reachable h w q ms seed m) by (by eapply steps_n_reachable).
  destruct (reachable_inv _ _ _ _ _ _ Hr0) as (Hinv0 & _).
  destruct (reachable_inv _ _ _ _ _ _ Hr) as (Hinv & _).
  split; [by eapply steps_n_rows|].
  intros v Hv.
  destruct (inv_bounds _ _ (minv_grid _ Hinv) v Hv) as [Hx Hy].
  split_and!.
  - intros d. by rewrite torus_adj_row by lia.
  - intros g' Hw' Hh' Hrow. destruct (accelerate_frame v) as (_ & A2 & _).
    apply decelerate_row; rewrite ?A2; done.
  - intros u. unfold compute, nxt.
    destruct (movement_frame (grid m)
                (randomise u (decelerate (grid m) (accelerate v))))
      as (_ & M2 & _ & _ & ->).
    destruct (randomise_frame u (decelerate (grid m) (accelerate v)))
      as (_ & R2 & _).
    destruct (decelerate_frame (grid m) (accelerate v)) as (_ & D2 & _).
    destruct (accelerate_frame v) as (_ & A2 & _).
    rewrite destination_row; rewrite R2, D2, A2; done.
Qed.

Lemma y_coordinate_fixed_witness :
  rows (_agents (schedule (the_model (run_lcg 1 60 5 4 42 3))))
  = rows (_agents (schedule (the_model (run_lcg 1 60 5 4 42 0)))).
Proof.
  apply (y_coordinate_fixed 1 60 5 4 42 3); vm_compute; reflexivity.
Defined.

(** * Further properties of the model *)

Lemma commit_frame w :
  unique_id (commit w) = unique_id w /\ speed (commit w) = speed w /\
  max_speed (commit w) = max_speed w /\ pos (commit w) = nxt w.
Proof. done. Qed.

Lemma advanced_facts g v v' :
  in_bounds g (pos v) -> 0 <= speed v -> advanced g v v' ->
  unique_id v' = unique_id v /\ max_speed v' = max_speed v /\
  pos v' = (((pos v).1 + speed v') mod grid_width g, (pos v).2) /\
  0 <= speed v' /\ speed v' <= speed v + 1 /\
  speed v' <= cells_ahead g v /\
  clear_ahead g (pos v) (speed v').
Proof.
  intros [Hx Hy] Hs (w & Hw & ->).
  destruct (commit_frame w) as (C1 & C2 & C3 & C4).
  rewrite C1, C2, C3, C4.
  pose proof (stepped_gap _ _ _ Hw) as Hgap.
  rewrite gap_check_min in Hgap by done.
  split_and!.
  - apply (stepped_id _ _ _ Hw).
  - apply (stepped_max _ _ _ Hw).
  - unfold nxt. rewrite (stepped_next _ _ _ Hw). unfold destination.
    rewrite (stepped_pos _ _ _ Hw). by rewrite torus_adj_row by lia.
  - apply (stepped_nonneg _ _ _ Hw).
  - assert (speed (accelerate v) <= speed v + 1); [|lia].
    unfold accelerate. destruct (_ <? _); cbn; lia.
  - lia.
  - apply (stepped_clear _ _ _ Hw).
Qed.

Section FurtherLemmas.
Context {rng : Type} `{RandomSource rng}.

(** A step from a state that satisfies the invariant, vehicle by vehicle. *)
Lemma step_advanced (m : NaSchTraffic rng) :
  model_inv m ->
  exists m', NaSchTraffic_step m = Ok m' /\ model_inv m' /\
    Forall2 (advanced (grid m)) (_agents (schedule m)) (_agents (schedule m')).
Proof.
  intros Hinv.
  destruct (NaSchTraffic_step_spec m Hinv) as (m' & E & Hinv' & Hst & Hag & _).
  exists m'. split_and!; [done..|].
  rewrite Hag. apply Forall2_fmap_r.
  eapply Forall2_impl; [exact Hst|]. intros v w Hw. by exists w.
Qed.

Lemma step_advanced_facts h w q ms seed (m : NaSchTraffic rng) :
  reachable h w q ms seed m ->
  exists m', NaSchTraffic_step m = Ok m' /\
    Forall2 (fun v v' =>
      unique_id v' = unique_id v /\ max_speed v' = max_speed v /\
      pos v' = (((pos v).1 + speed v') mod w, (pos v).2) /\
      0 <= speed v' /\ speed v' <= speed v + 1 /\
      speed v' <= cells_ahead (grid m) v /\
      clear_ahead (grid m) (pos v) (speed v'))
      (_agents (schedule m)) (_agents (schedule m')).
Proof.
  intros Hr.
  destruct (reachable_inv _ _ _ _ _ _ Hr) as (Hinv & _ & _ & Hw & _).
  destruct (step_advanced m Hinv) as (m' & E & _ & Hadv).
  exists m'. split; [done|].
  apply Forall2_same_length_lookup. split; [by eapply Forall2_length|].
  intros i v v' Hv Hv'.
  pose proof (Forall2_lookup_lr _ _ _ _ _ _ Hadv Hv Hv') as Ha.
  assert (Hin : v ∈ _agents (schedule m)) by (by eapply list_elem_of_lookup_2).
  rewrite <- Hw. apply advanced_facts; [|..|done].
  - by apply (inv_bounds _ _ (minv_grid _ Hinv)).
  - by apply (inv_speed _ _ (minv_grid _ Hinv)).
Qed.

End FurtherLemmas.

(** X1: in every reachable state the grid and the schedule agree: a cell of
    the grid is occupied exactly when one of the scheduled vehicles has it
    as its position. *)
Theorem grid_agrees_with_schedule {rng : Type} `{RandomSource rng}
    h w q ms seed (m : NaSchTraffic rng) p :
  reachable h w q ms seed m ->
  is_cell_empty (grid m) p = false <->
  exists v, v ∈ _agents (schedule m) /\ pos v = p.
Proof.
  intros Hr. destruct (reachable_inv _ _ _ _ _ _ Hr) as (Hinv & _).
  rewrite (inv_occ _ _ (minv_grid _ Hinv)), list_elem_of_fmap.
  split; intros (v & ? & ?); by exists v.
Qed.

Lemma grid_agrees_with_schedule_witness :
  let m := the_model (run_lcg 1 60 5 4 42 3) in
  is_cell_empty (grid m) (pos (first_vehicle m)) = false.
Proof.
  intros m.
  apply (grid_agrees_with_schedule 1 60 5 4 42 m).
  - apply (run_lcg_reachable 1 60 5 4 42 3). vm_compute. reflexivity.
  - exists (first_vehicle m). split; [vm_compute; left|reflexivity].
Defined.

(** X2: in every reachable state every vehicle stands on a cell of the
    grid: 0 <= x < width and 0 <= y < height. *)
Theorem positions_in_range {rng : Type} `{RandomSource rng}
    h w q ms seed (m : NaSchTraffic rng) v :
  reachable h w q ms seed m -> v ∈ _agents (schedule m) ->
  0 <= (pos v).1 < w /\ 0 <= (pos v).2 < h.
Proof.
  intros Hr Hv.
  destruct (reachable_inv _ _ _ _ _ _ Hr) as (Hinv & _ & _ & Hw & Hh).
  rewrite <- Hw, <- Hh. by apply (inv_bounds _ _ (minv_grid _ Hinv)).
Qed.

Lemma positions_in_range_witness :
  let m := the_model (run_lcg 1 60 5 4 42 3) in
  0 <= (pos (first_vehicle m)).1 < 60 /\ 0 <= (pos (first_vehicle m)).2 < 1.
Proof.
  intros m. apply (positions_in_range 1 60 5 4 42 m).
  - apply (run_lcg_reachable 1 60 5 4 42 3). vm_compute. reflexivity.
  - vm_compute. left.
Defined.

(** X3: a step keeps every vehicle's identity and maximum speed and moves
    it forward by exactly its new speed, with wraparound: the new position
    is ((x + speed) mod width, y), never an index outside the lane. *)
Theorem step_moves_by_speed {rng : Type} `{RandomSource rng}
    h w q ms seed (m : NaSchTraffic rng) :
  reachable h w q ms seed m ->
  exists m', NaSchTraffic_step m = Ok m' /\
    Forall2 (fun v v' =>
      unique_id v' = unique_id v /\ max_speed v' = max_speed v /\
      pos v' = (((pos v).1 + speed v') mod w, (pos v).2))
      (_agents (schedule m)) (_agents (schedule m')).
Proof.
  intros Hr.
  destruct (step_advanced_facts h w q ms seed m Hr) as (m' & E & Hf).
  exists m'. split; [done|].
  eapply Forall2_impl; [exact Hf|]. intros v v' (? & ? & ? & _). done.
Qed.

Lemma step_moves_by_speed_witness :
  exists m',
    NaSchTraffic_step (the_model (run_lcg 1 60 5 4 42 3)) = Ok m' /\
    length (_agents (schedule m')) = 5%nat.
Proof.
  destruct (step_moves_by_speed 1 60 5 4 42 (the_model (run_lcg 1 60 5 4 42 3)))
    as (m' & E & Hf).
  - apply (run_lcg_reachable 1 60 5 4 42 3). vm_compute. reflexivity.
  - exists m'. split; [exact E|].
    rewrite <- (Forall2_length _ _ _ Hf). vm_compute. reflexivity.
Defined.

(** X4: no vehicle reaches or passes another one: for two vehicles of the
    same row, the speed one of them gets in a step is smaller than the
    distance, counted forward around the lane, from it to the other. *)
Theorem stops_short_of_next_vehicle {rng : Type} `{RandomSource rng}
    h w q ms seed (m : NaSchTraffic rng) i j v u :
  reachable h w q ms seed m ->
  _agents (schedule m) !! i = Some v -> _agents (schedule m) !! j = Some u ->
  i <> j -> (pos v).2 = (pos u).2 ->
  exists m' v', NaSchTraffic_step m = Ok m' /\
    _agents (schedule m') !! i = Some v' /\
    speed v' < ((pos u).1 - (pos v).1) mod w.
Proof.
  intros Hr Hv Hu Hij Hy.
  destruct (reachable_inv _ _ _ _ _ _ Hr) as (Hinv & _ & _ & Hw & _).
  pose proof (minv_grid _ Hinv) as Hg.
  destruct (step_advanced_facts h w q ms seed m Hr) as (m' & E & Hf).
  destruct (Forall2_lookup_l _ _ _ _ _ Hf Hv) as (v' & Hv' & _ & _ & _ & _ & _ & _ & Hc).
  exists m', v'. split_and!; [done..|].
  assert (Hvin : v ∈ _agents (schedule m)) by (by eapply list_elem_of_lookup_2).
  assert (Huin : u ∈ _agents (schedule m)) by (by eapply list_elem_of_lookup_2).
  destruct (inv_bounds _ _ Hg v Hvin) as [Hvx Hvy].
  destruct (inv_bounds _ _ Hg u Huin) as [Hux Huy].
  assert (Hne : pos v <> pos u).
  { by apply (NoDup_pairwise_distinct _ (inv_nodup _ _ Hg) i j). }
  assert (Hocc : is_cell_empty (grid m) (pos u) = false).
  { apply (inv_occ _ _ Hg). by apply list_elem_of_fmap_2. }
  destruct (pos v) as [x y], (pos u) as [x' y']; cbn in *. subst y'.
  rewrite <- Hw. apply (clear_ahead_lt_gap (grid m) x x' y); try done.
  congruence.
Qed.

Lemma stops_short_of_next_vehicle_witness :
  let m := the_model (run_lcg 1 60 5 4 42 3) in
  exists m' v', NaSchTraffic_step m = Ok m' /\
    _agents (schedule m') !! 0%nat = Some v' /\ speed v' < 12.
Proof.
  intros m.
  assert (Hr : reachable 1 60 5 4 42 m).
  { apply (run_lcg_reachable 1 60 5 4 42 3). vm_compute. reflexivity. }
  assert (H0 : _agents (schedule m) !! 0%nat
               = Some (mkVehicle (27, 0) (50, 0) 3 4 (Some (50, 0)))).
  { vm_compute. reflexivity. }
  assert (H1 : _agents (schedule m) !! 1%nat
               = Some (mkVehicle (28, 0) (2, 0) 3 4 (Some (2, 0)))).
  { vm_compute. reflexivity. }
  assert (Hij : 0%nat <> 1%nat) by lia.
  exact (stops_short_of_next_vehicle 1 60 5 4 42 m 0 1 _ _ Hr H0 H1 Hij eq_refl).
Defined.

(** X5: a step raises no vehicle's speed by more than 1. *)
Theorem speed_gain_at_most_one {rng : Type} `{RandomSource rng}
    h w q ms seed (m : NaSchTraffic rng) :
  reachable h w q ms seed m ->
  exists m', NaSchTraffic_step m = Ok m' /\
    Forall2 (fun v v' => speed v' <= speed v + 1)
      (_agents (schedule m)) (_agents (schedule m')).
Proof.
  intros Hr.
  destruct (step_advanced_facts h w q ms seed m Hr) as (m' & E & Hf).
  exists m'. split; [done|].
  eapply Forall2_impl; [exact Hf|]. intros v v' (_ & _ & _ & _ & ? & _). done.
Qed.

Lemma speed_gain_at_most_one_witness :
  exists m',
    NaSchTraffic_step (the_model (run_lcg 1 60 5 4 42 3)) = Ok m' /\
    length (_agents (schedule m')) = 5%nat.
Proof.
  destruct (speed_gain_at_most_one 1 60 5 4 42 (the_model (run_lcg 1 60 5 4 42 3)))
    as (m' & E & Hf).
  - apply (run_lcg_reachable 1 60 5 4 42 3). vm_compute. reflexivity.
  - exists m'. split; [exact E|].
    rewrite <- (Forall2_length _ _ _ Hf). vm_compute. reflexivity.
Defined.

Lemma blocked_cells_ahead g v :
  is_cell_empty g (torus_adj g ((pos v).1 + 1, (pos v).2)) = false ->
  cells_ahead g v = 0.
Proof.
  intros Hocc. unfold cells_ahead.
  destruct (Z.to_nat (max_speed v)); cbn; [done|]. by rewrite Hocc.
Qed.

Lemma no_range_cells_ahead g v : max_speed v <= 0 -> cells_ahead g v = 0.
Proof.
  intros Hms. unfold cells_ahead. by replace (Z.to_nat (max_speed v)) with O by lia.
Qed.

(** A vehicle that gets speed 0 stays where it is. *)
Lemma halted_position (w x y s : Z) :
  0 <= x < w -> s = 0 -> ((x + s) mod w, y) = (x, y).
Proof. intros Hx ->. by rewrite Z.add_0_r, Z.mod_small. Qed.

(** X6: a vehicle whose next cell is occupied gets speed 0 in the step and
    keeps its position, whatever value the random source returns. *)
Theorem blocked_vehicle_stays {rng : Type} `{RandomSource rng}
    h w q ms seed (m : NaSchTraffic rng) i v :
  reachable h w q ms seed m -> _agents (schedule m) !! i = Some v ->
  is_cell_empty (grid m) (torus_adj (grid m) ((pos v).1 + 1, (pos v).2)) = false ->
  exists m' v', NaSchTraffic_step m = Ok m' /\
    _agents (schedule m') !! i = Some v' /\ speed v' = 0 /\ pos v' = pos v.
Proof.
  intros Hr Hv Hocc.
  destruct (reachable_inv _ _ _ _ _ _ Hr) as (Hinv & _ & _ & Hw & _).
  destruct (step_advanced_facts h w q ms seed m Hr) as (m' & E & Hf).
  destruct (Forall2_lookup_l _ _ _ _ _ Hf Hv)
    as (v' & Hv' & _ & _ & Hp & Hs0 & _ & Hs1 & _).
  rewrite (blocked_cells_ahead _ _ Hocc) in Hs1.
  assert (Hin : v ∈ _agents (schedule m)) by (by eapply list_elem_of_lookup_2).
  destruct (inv_bounds _ _ (minv_grid _ Hinv) v Hin) as [Hx _].
  exists m', v'. split_and!; [done|done|lia|].
  rewrite Hp, halted_position; [by destruct (pos v)|lia|lia].
Qed.

Lemma blocked_vehicle_stays_witness :
  let m := the_model (run_lcg 1 3 3 4 42 0) in
  exists m' v', NaSchTraffic_step m = Ok m' /\
    _agents (schedule m') !! 0%nat = Some v' /\ speed v' = 0 /\
    pos v' = pos (first_vehicle m).
Proof.
  intros m.
  apply (blocked_vehicle_stays 1 3 3 4 42 m 0 (first_vehicle m)).
  - apply (run_lcg_reachable 1 3 3 4 42 0). vm_compute. reflexivity.
  - vm_compute. reflexivity.
  - vm_compute. reflexivity.
Defined.

(** X7: on a lane with as many vehicles as cells nothing moves: a step
    gives every vehicle speed 0 and leaves every position unchanged. *)
Theorem full_lane_is_stuck {rng : Type} `{RandomSource rng}
    h w ms seed (m : NaSchTraffic rng) :
  0 < w -> 0 < h -> reachable h w (w * h) ms seed m ->
  exists m', NaSchTraffic_step m = Ok m' /\
    Forall2 (fun v v' => speed v' = 0 /\ pos v' = pos v)
      (_agents (schedule m)) (_agents (schedule m')).
Proof.
  intros Hw0 Hh0 Hr.
  destruct (reachable_inv _ _ _ _ _ _ Hr) as (Hinv & _ & Hlen & Hw & Hh).
  pose proof (minv_grid _ Hinv) as Hg.
  assert (Hall : forall p, in_bounds (grid m) p -> is_cell_empty (grid m) p = false).
  { intros p Hp. apply (inv_occ _ _ Hg).
    assert (Hperm : pos <$> _agents (schedule m) ≡ₚ coord_iter (grid m)).
    { apply submseteq_length_Permutation.
      - apply NoDup_submseteq; [apply (inv_nodup _ _ Hg)|].
        intros c (v & -> & Hv)%list_elem_of_fmap.
        by apply elem_of_coord_iter, (inv_bounds _ _ Hg).
      - rewrite length_fmap, Hlen, length_coord_iter, Hw, Hh.
        rewrite Z2Nat.inj_mul by lia. done. }
    rewrite Hperm. by apply elem_of_coord_iter. }
  destruct (step_advanced_facts h w (w * h) ms seed m Hr) as (m' & E & Hf).
  exists m'. split; [done|].
  apply Forall2_same_length_lookup. split; [by eapply Forall2_length|].
  intros i v v' Hv Hv'.
  destruct (Forall2_lookup_lr _ _ _ _ _ _ Hf Hv Hv')
    as (_ & _ & Hp & Hs0 & _ & Hs1 & _).
  assert (Hin : v ∈ _agents (schedule m)) by (by eapply list_elem_of_lookup_2).
  destruct (inv_bounds _ _ Hg v Hin) as [Hx Hy].
  rewrite blocked_cells_ahead in Hs1.
  - split; [lia|]. rewrite Hp, halted_position; [by destruct (pos v)|lia|lia].
  - apply Hall, torus_adj_bounds; lia.
Qed.

Lemma full_lane_is_stuck_witness :
  exists m', NaSchTraffic_step (the_model (run_lcg 2 3 6 4 42 0)) = Ok m' /\
             length (_agents (schedule m')) = 6%nat.
Proof.
  assert (Hw : 0 < 3) by lia. assert (Hh : 0 < 2) by lia.
  destruct (full_lane_is_stuck 2 3 4 42 (the_model (run_lcg 2 3 6 4 42 0)) Hw Hh)
    as (m' & E & Hf).
  - apply (run_lcg_reachable 2 3 (3 * 2) 4 42 0). vm_compute. reflexivity.
  - exists m'. split; [exact E|].
    rewrite <- (Forall2_length _ _ _ Hf). vm_compute. reflexivity.
Defined.

(** X8: with a max speed that is not positive no vehicle ever moves: after
    any number of steps from a reachable state, positions and speeds (all 0)
    are what they were. *)
Theorem nonpositive_max_speed_freezes {rng : Type} `{RandomSource rng}
    h w q ms seed n : forall (m m' : NaSchTraffic rng),
  ms <= 0 -> reachable h w q ms seed m -> steps_n n m = Ok m' ->
  track (_agents (schedule m')) = track (_agents (schedule m)) /\
  Forall (fun v => speed v = 0) (_agents (schedule m)).
Proof.
  induction n as [|n IH]; intros m m' Hms Hr Hn.
  - cbn in Hn. injection Hn as <-. split; [done|].
    destruct (reachable_inv _ _ _ _ _ _ Hr) as (Hinv & Hgm & _).
    apply Forall_forall. intros v Hv.
    pose proof (inv_speed _ _ (minv_grid _ Hinv) v Hv).
    pose proof (minv_max _ Hinv) as Hmax. rewrite Forall_forall in Hmax.
    specialize (Hmax v Hv). lia.
  - destruct (reachable_inv _ _ _ _ _ _ Hr) as (Hinv & Hgm & _ & Hw & _).
    pose proof (minv_grid _ Hinv) as Hg.
    pose proof (minv_max _ Hinv) as Hmax. rewrite Forall_forall in Hmax.
    destruct (step_advanced_facts h w q ms seed m Hr) as (m1 & E & Hf).
    cbn in Hn. rewrite E in Hn. cbn in Hn.
    assert (Hr1 : reachable h w q ms seed m1) by (by eapply reachable_step).
    destruct (IH m1 m' Hms Hr1 Hn) as [Ht _].
    assert (H0 : Forall (fun v => speed v = 0) (_agents (schedule m))).
    { apply Forall_forall. intros v Hv.
      pose proof (inv_speed _ _ Hg v Hv). specialize (Hmax v Hv). lia. }
    split; [|done]. rewrite Ht. unfold track.
    apply list_eq_same_length with (length (_agents (schedule m)));
      rewrite ?length_fmap; [done|by symmetry; eapply Forall2_length|].
    intros i a b _. rewrite !list_lookup_fmap.
    destruct (_agents (schedule m1) !! i) as [v'|] eqn:Hv';
      destruct (_agents (schedule m) !! i) as [v|] eqn:Hv; cbn; try done.
    intros [= <-] [= <-].
    destruct (Forall2_lookup_lr _ _ _ _ _ _ Hf Hv Hv')
      as (_ & _ & Hp & Hs0 & _ & Hs1 & _).
    assert (Hin : v ∈ _agents (schedule m)) by (by eapply list_elem_of_lookup_2).
    destruct (inv_bounds _ _ Hg v Hin) as [Hx Hy].
    rewrite no_range_cells_ahead in Hs1 by (rewrite (Hmax v Hin); lia).
    rewrite Forall_forall in H0. rewrite (H0 v Hin).
    replace (speed v') with 0 by lia. f_equal.
    rewrite Hp, halted_position; [by destruct (pos v)|lia|lia].
Qed.

Lemma nonpositive_max_speed_freezes_witness :
  track (_agents (schedule (the_model (run_lcg 1 60 5 0 42 7))))
  = track (_agents (schedule (the_model (run_lcg 1 60 5 0 42 0)))).
Proof.
  assert (Hms : 0 <= 0) by lia.
  apply (nonpositive_max_speed_freezes 1 60 5 0 42 7 _ _ Hms).
  - apply (run_lcg_reachable 1 60 5 0 42 0). vm_compute. reflexivity.
  - vm_compute. reflexivity.
Defined.

Lemma agents_insert_Forall (P : VehicleAgent -> Prop) a l :
  P a -> Forall P l -> Forall P (agents_insert a l).
Proof.
  intros Ha. induction 1 as [|b l Hb Hl IH]; cbn; [by repeat constructor|].
  destruct (decide _); by constructor.
Qed.

Lemma sum_speeds_bounds ms vs :
  Forall (fun v => 0 <= speed v <= ms) vs ->
  0 <= sum_speeds vs <= Z.of_nat (length vs) * ms.
Proof.
  unfold sum_speeds. induction 1 as [|v vs Hv _ IH]; cbn [fmap list_fmap foldr length]; lia.
Qed.

Section ConstructionAndRecords.
Context {rng : Type} `{RandomSource rng}.

Lemma place_vehicles_Forall (P : VehicleAgent -> Prop) cells ms iters :
  forall g s (r : rng) g' s' r',
  (forall c p, P (set_pos (VehicleAgent_init c ms) p)) ->
  Forall P (_agents s) ->
  place_vehicles cells ms iters g s r = Ok (g', s', r') ->
  Forall P (_agents s').
Proof.
  induction iters as [|i iters IH]; intros g s r g' s' r' HP Hs; cbn.
  - by intros [= _ <- _].
  - destruct (cells !! Z.to_nat i) as [[x y]|]; [|done].
    unfold position_agent.
    destruct (rng_choice (empties g) r) as [[c|] r1]; [|done].
    destruct (_place_agent g c _) as [g1|e]; [|done]. cbn.
    apply IH; [done|]. cbn. by apply agents_insert_Forall.
Qed.

(** The fields __init__ sets directly. *)
Lemma NaSchTraffic_init_fields h w q ms seed (m : NaSchTraffic rng) :
  NaSchTraffic_init h w q ms seed = Ok m ->
  height m = h /\ width m = w /\ vehicle_quantity m = q /\
  average_speed m = 0%Q /\ averages m = [] /\ total_speed m = 0 /\
  datacollector m
  = mkCollector [0%Q] [(0, agent_row <$> _agents (schedule m))] /\
  Forall (fun v => speed v = 0 /\ _next_pos v = None) (_agents (schedule m)).
Proof.
  intros Hinit.
  pose proof (NaSchTraffic_init_spec h w q ms seed) as Hs.
  rewrite Hinit in Hs. destruct Hs as (_ & _ & _ & Hst & _).
  revert Hinit Hst. unfold NaSchTraffic_init.
  destruct (rng_shuffle _ _) as [cells r0].
  destruct (place_vehicles _ _ _ _ _ _) as [[[g s] r]|e] eqn:Ep; [|done].
  cbn. intros [= <-]. cbn. intros Hst. split_and!; try done.
  - unfold collect. cbn. by rewrite Hst.
  - eapply place_vehicles_Forall; [| |exact Ep]; [done|constructor].
Qed.

(** What one call of step() does to the bookkeeping fields. *)
Lemma NaSchTraffic_step_fields (m m' : NaSchTraffic rng) :
  NaSchTraffic_step m = Ok m' ->
  advance_agents (grid m)
    (step_agents (grid m) (_agents (schedule m)) (random m) 0).1.1
  = Ok (grid m', _agents (schedule m')) /\
  steps (schedule m') = steps (schedule m) + 1 /\
  averages m' = averages m ++ [average_speed m'] /\
  datacollector m'
  = collect (datacollector m) (average_speed m') (schedule m') /\
  height m' = height m /\ width m' = width m /\
  vehicle_quantity m' = vehicle_quantity m.
Proof.
  unfold NaSchTraffic_step.
  destruct (step_agents _ _ _ _) as [[ws r] t]. cbn [fst snd].
  destruct (advance_agents (grid m) ws) as [[g' vs']|e]; [|done].
  cbn. intros [= <-]. done.
Qed.

Lemma step_agents_rng g vs : forall (r : rng) t,
  (step_agents g vs r t).1.2 = rng_after (length vs) r.
Proof.
  induction vs as [|v vs IH]; intros r t; [done|].
  cbn [step_agents length rng_after].
  rewrite VehicleAgent_step_eq. cbv beta iota zeta.
  match goal with
  | |- context [step_agents g vs ?r' ?t'] =>
      specialize (IH r' t'); destruct (step_agents g vs r' t') as [[ws r''] t'']
  end.
  done.
Qed.

End ConstructionAndRecords.

(** X9: a successful construction returns a model with exactly
    vehicle_quantity vehicles (none when that number is negative), each at
    speed 0 with the general max speed and no pending position, with step
    count 0, no averages yet, [running] true, and one collected record: the
    average 0 and the table of the initial vehicles. *)
Theorem constructed_state {rng : Type} `{RandomSource rng}
    h w q ms seed (m : NaSchTraffic rng) :
  NaSchTraffic_init h w q ms seed = Ok m ->
  length (_agents (schedule m)) = Z.to_nat q /\
  Forall (fun v => speed v = 0 /\ max_speed v = ms /\ _next_pos v = None)
         (_agents (schedule m)) /\
  steps (schedule m) = 0 /\ averages m = [] /\ average_speed m = 0%Q /\
  total_speed m = 0 /\ running m = true /\
  datacollector m
  = mkCollector [0%Q] [(0, agent_row <$> _agents (schedule m))].
Proof.
  intros Hinit.
  pose proof (NaSchTraffic_init_spec h w q ms seed) as Hs.
  rewrite Hinit in Hs.
  destruct Hs as (_ & Hinv & Hrun & Hst & Hgm & Hlen & _).
  destruct (NaSchTraffic_init_fields _ _ _ _ _ _ Hinit)
    as (_ & _ & _ & Havg & Hav & Htot & Hdc & Hfresh).
  split_and!; try done.
  pose proof (minv_max _ Hinv) as Hmax.
  rewrite Forall_forall in Hmax, Hfresh. apply Forall_forall. intros v Hv.
  destruct (Hfresh v Hv). specialize (Hmax v Hv). split_and!; congruence.
Qed.

Lemma constructed_state_witness :
  length (_agents (schedule (the_model (run_lcg 1 60 5 4 42 0)))) = 5%nat.
Proof.
  apply (constructed_state 1 60 5 4 42). vm_compute. reflexivity.
Defined.

(** X10: once a model is constructed, step() can be called any number of
    times without an exception; after [n] calls schedule.steps is [n],
    [averages] has [n] entries and the number of vehicles is unchanged. *)
Theorem steps_never_raise {rng : Type} `{RandomSource rng}
    h w q ms seed n (m0 : NaSchTraffic rng) :
  NaSchTraffic_init h w q ms seed = Ok m0 ->
  exists m, steps_n n m0 = Ok m /\
    steps (schedule m) = Z.of_nat n /\ length (averages m) = n /\
    length (_agents (schedule m)) = length (_agents (schedule m0)).
Proof.
  intros Hinit.
  assert (Hr0 : reachable h w q ms seed m0) by (by apply reachable_init).
  destruct (reachable_inv _ _ _ _ _ _ Hr0) as (Hinv0 & _ & Hlen0 & _).
  pose proof (NaSchTraffic_init_spec h w q ms seed) as Hs.
  rewrite Hinit in Hs. destruct Hs as (_ & _ & _ & Hst0 & _).
  destruct (steps_n_spec n m0 Hinv0) as (m & E & Hinv & Hst).
  assert (Hr : reachable h w q ms seed m) by (by eapply steps_n_reachable).
  destruct (reachable_inv _ _ _ _ _ _ Hr) as (_ & _ & Hlen & _).
  exists m. split_and!; [done|lia| |congruence].
  pose proof (minv_averages _ Hinv). lia.
Qed.

Lemma steps_never_raise_witness :
  exists m, steps_n 7 (the_model (run_lcg 1 60 5 4 42 0)) = Ok m /\
            steps (schedule m) = 7.
Proof.
  destruct (steps_never_raise 1 60 5 4 42 7 (the_model (run_lcg 1 60 5 4 42 0)))
    as (m & E & Hs & _).
  - vm_compute. reflexivity.
  - exists m. split; [exact E|exact Hs].
Defined.

(** X11: in every reachable state the collector holds the average-speed
    series 0 followed by [averages], and one agent table per collection:
    the tables are tagged 0, 1, ..., schedule.steps, each has one row per
    vehicle, and the last one shows the current x positions and speeds. *)
Theorem collector_records {rng : Type} `{RandomSource rng}
    h w q ms seed (m : NaSchTraffic rng) :
  reachable h w q ms seed m ->
  model_vars (datacollector m) = 0%Q :: averages m /\
  (agent_records (datacollector m)).*1 = seqZ 0 (steps (schedule m) + 1) /\
  Forall (fun t => length t.2 = length (_agents (schedule m)))
         (agent_records (datacollector m)) /\
  last (agent_records (datacollector m))
  = Some (steps (schedule m), agent_row <$> _agents (schedule m)).
Proof.
  induction 1 as [m Hinit|m m' Hr IH Hstep].
  - destruct (NaSchTraffic_init_fields _ _ _ _ _ _ Hinit)
      as (_ & _ & _ & _ & Hav & _ & Hdc & _).
    pose proof (NaSchTraffic_init_spec h w q ms seed) as Hs.
    rewrite Hinit in Hs. destruct Hs as (_ & _ & _ & Hst & _).
    rewrite Hdc, Hav, Hst. cbn. split_and!; try done.
    constructor; [|constructor]. cbn. by rewrite length_fmap.
  - destruct IH as (I1 & I2 & I3 & I4).
    destruct (reachable_inv _ _ _ _ _ _ Hr) as (Hinv & _ & Hlen & _).
    assert (Hr' : reachable h w q ms seed m') by (by eapply reachable_step).
    destruct (reachable_inv _ _ _ _ _ _ Hr') as (_ & _ & Hlen' & _).
    destruct (NaSchTraffic_step_fields m m' Hstep)
      as (_ & Hst & Hav & Hdc & _).
    pose proof (minv_steps _ Hinv) as Hs0.
    rewrite Hdc, Hav. unfold collect. cbn. split_and!.
    + rewrite I1. done.
    + rewrite fmap_app, I2. cbn. rewrite Hst.
      rewrite (seqZ_app 0 (steps (schedule m) + 1) 1) by lia.
      reflexivity.
    + apply Forall_app. split.
      * eapply Forall_impl; [exact I3|]. cbn. intros t Ht. congruence.
      * constructor; [|constructor]. cbn. by rewrite length_fmap.
    + by rewrite last_snoc.
Qed.

Lemma collector_records_witness :
  model_vars (datacollector (the_model (run_lcg 1 60 5 4 42 3)))
  = 0%Q :: averages (the_model (run_lcg 1 60 5 4 42 3)).
Proof.
  apply (collector_records 1 60 5 4 42).
  apply (run_lcg_reachable 1 60 5 4 42 3). vm_compute. reflexivity.
Defined.

(** X12: in every reachable state [running] is true exactly while
    schedule.steps is at most 100; as the step count only grows, a flag
    that has become false is never true again. *)
Theorem running_iff_within_budget {rng : Type} `{RandomSource rng}
    h w q ms seed (m : NaSchTraffic rng) :
  reachable h w q ms seed m ->
  0 <= steps (schedule m) /\
  (running m = true <-> steps (schedule m) <= 100).
Proof.
  intros Hr. destruct (reachable_inv _ _ _ _ _ _ Hr) as (Hinv & _).
  split; [apply (minv_steps _ Hinv)|].
  rewrite (minv_running _ Hinv). apply bool_decide_eq_true.
Qed.

Lemma running_iff_within_budget_witness :
  running (the_model (run_lcg 1 60 5 4 42 100)) = true <->
  steps (schedule (the_model (run_lcg 1 60 5 4 42 100))) <= 100.
Proof.
  apply (running_iff_within_budget 1 60 5 4 42).
  apply (run_lcg_reachable 1 60 5 4 42 100). vm_compute. reflexivity.
Defined.

Lemma average_in_range (total count ms : Z) :
  0 <= total <= count * ms -> 0 <= ms ->
  (0 <= (if 0 <? count then inject_Z total / inject_Z count else 0)
     <= inject_Z ms)%Q.
Proof.
  intros Ht Hms. destruct (0 <? count) eqn:E.
  - destruct count as [|p|p]; try done.
    unfold Qle, Qdiv, Qmult, Qinv, inject_Z; cbn. nia.
  - unfold Qle, inject_Z; cbn. lia.
Qed.

(** X13: with a max speed that is not negative, the average speed of every
    reachable state lies between 0 and the max speed. *)
Theorem average_speed_in_range {rng : Type} `{RandomSource rng}
    h w q ms seed (m : NaSchTraffic rng) :
  0 <= ms -> reachable h w q ms seed m ->
  (0 <= average_speed m <= inject_Z ms)%Q.
Proof.
  intros Hms Hr. destruct Hr as [m Hinit|m m' Hr Hstep].
  - destruct (NaSchTraffic_init_fields _ _ _ _ _ _ Hinit)
      as (_ & _ & _ & -> & _).
    unfold Qle, inject_Z; cbn. lia.
  - destruct (reachable_inv _ _ _ _ _ _ Hr) as (Hinv & _).
    destruct (NaSchTraffic_step_spec m Hinv)
      as (m1 & E & Hinv1 & _ & _ & _ & Htot & Havg & _ & _ & Hgm & _).
    rewrite Hstep in E. injection E as <-.
    assert (Hr' : reachable h w q ms seed m') by (by eapply reachable_step).
    destruct (reachable_inv _ _ _ _ _ _ Hr') as (_ & Hgm' & _).
    rewrite Havg, Htot. apply average_in_range; [|done].
    unfold get_agent_count. apply sum_speeds_bounds.
    apply Forall_forall. intros v Hv.
    pose proof (inv_speed _ _ (minv_grid _ Hinv1) v Hv).
    pose proof (minv_max _ Hinv1) as Hmax. rewrite Forall_forall in Hmax.
    specialize (Hmax v Hv). lia.
Qed.

Lemma average_speed_in_range_witness :
  (0 <= average_speed (the_model (run_lcg 1 60 5 4 42 3)) <= inject_Z 4)%Q.
Proof.
  assert (Hms : 0 <= 4) by lia.
  apply (average_speed_in_range 1 60 5 4 42 _ Hms).
  apply (run_lcg_reachable 1 60 5 4 42 3). vm_compute. reflexivity.
Defined.

(** X14: a step calls [random()] exactly once per vehicle, in schedule
    order, and uses the random source for nothing else; the state each
    vehicle ends in depends only on the grid before the step, the vehicle
    itself and the one value drawn for it. *)
Theorem one_draw_per_vehicle {rng : Type} `{RandomSource rng}
    h w q ms seed (m : NaSchTraffic rng) :
  reachable h w q ms seed m ->
  exists m', NaSchTraffic_step m = Ok m' /\
    random m' = rng_after (length (_agents (schedule m))) (random m) /\
    _agents (schedule m')
    = zip_with (fun v u => commit (compute (grid m) v u))
        (_agents (schedule m))
        (draws (length (_agents (schedule m))) (random m)).
Proof.
  intros Hr. destruct (reachable_inv _ _ _ _ _ _ Hr) as (Hinv & _).
  destruct (NaSchTraffic_step_spec m Hinv)
    as (m' & E & _ & _ & Hag & _ & _ & _ & _ & _ & _ & _ & _ & Hrand).
  exists m'. split_and!; [done| |].
  - by rewrite Hrand, step_agents_rng.
  - rewrite Hag, step_agents_draws.
    generalize (draws (length (_agents (schedule m))) (random m)).
    generalize (_agents (schedule m)).
    induction l as [|v vs IH]; intros [|u us]; cbn; try done.
    by rewrite IH.
Qed.

Lemma one_draw_per_vehicle_witness :
  let m := the_model (run_lcg 1 60 5 4 42 3) in
  exists m', NaSchTraffic_step m = Ok m' /\
             random m' = rng_after 5 (random m).
Proof.
  intros m.
  destruct (one_draw_per_vehicle 1 60 5 4 42 m) as (m' & E & Hrand & _).
  - apply (run_lcg_reachable 1 60 5 4 42 3). vm_compute. reflexivity.
  - exists m'. split; [exact E|]. rewrite Hrand. reflexivity.
Defined.

(** The commit phase on any list of vehicles that are ready to advance. *)
Lemma advance_ready g ws :
  Forall (ready g) ws -> NoDup (pos <$> ws) ->
  exists g', advance_agents g ws = Ok (g', commit <$> ws) /\
    forall p, is_cell_empty g' p
              = if decide (p ∈ nxt <$> ws) then false
                else if decide (p ∈ pos <$> ws) then true
                else is_cell_empty g p.
Proof.
  intros Hr Hdp. rewrite Forall_forall in Hr.
  assert (Hdn : NoDup (nxt <$> ws)).
  { apply NoDup_fmap_2_strong; [|by eapply NoDup_fmap_1].
    intros a b Ha Hb Heq. eapply (NoDup_fmap_eq pos); [done..|].
    eapply ready_nxt_inj; eauto. }
  destruct (advance_agents_spec ws g) as (g' & E & _ & _ & Hq); [|done..| | |].
  - intros a Ha. split; [|by eapply ready_nxt_bounds; eauto].
    rewrite (ready_next _ _ (Hr a Ha)). f_equal. symmetry.
    by apply ready_nxt, Hr.
  - intros a Ha. by apply ready_nxt_free, Hr.
  - intros a b Ha Hb. eapply ready_nxt_own; eauto.
  - by exists g'.
Qed.

(** X15: the order in which the vehicles advance does not matter: taking
    the vehicles as they are after the compute phase in any other order,
    every advance() succeeds and the same cells end up occupied as in the
    step the model performs. *)
Theorem commit_order_irrelevant {rng : Type} `{RandomSource rng}
    h w q ms seed (m : NaSchTraffic rng) ws' :
  reachable h w q ms seed m ->
  ws' ≡ₚ zip_with (compute (grid m)) (_agents (schedule m))
           (draws (length (_agents (schedule m))) (random m)) ->
  exists m' g', NaSchTraffic_step m = Ok m' /\
    advance_agents (grid m) ws' = Ok (g', commit <$> ws') /\
    forall p, is_cell_empty g' p = is_cell_empty (grid m') p.
Proof.
  intros Hr Hperm. destruct (reachable_inv _ _ _ _ _ _ Hr) as (Hinv & _).
  pose proof (minv_grid _ Hinv) as Hg.
  destruct (NaSchTraffic_step_spec m Hinv) as (m' & E & _ & Hst & _).
  destruct (NaSchTraffic_step_fields m m' E) as (Eadv & _).
  rewrite step_agents_draws in Hst, Eadv.
  set (ws := zip_with _ _ _) in *.
  pose proof (stepped_ready _ _ _ Hg Hst) as Hready.
  assert (Hdp : NoDup (pos <$> ws)).
  { rewrite (stepped_pos_list _ _ _ Hst). apply (inv_nodup _ _ Hg). }
  destruct (advance_ready (grid m) ws Hready Hdp) as (g1 & E1 & Hq1).
  rewrite Eadv in E1. injection E1 as <- _.
  destruct (advance_ready (grid m) ws') as (g' & E' & Hq').
  { by rewrite Hperm. }
  { by rewrite Hperm. }
  exists m', g'. split_and!; [done..|].
  intros p. rewrite Hq', Hq1.
  destruct (decide (p ∈ nxt <$> ws')) as [H1|H1];
    destruct (decide (p ∈ nxt <$> ws)) as [H2|H2];
    rewrite Hperm in H1; try done.
  destruct (decide (p ∈ pos <$> ws')) as [H3|H3];
    destruct (decide (p ∈ pos <$> ws)) as [H4|H4];
    rewrite Hperm in H3; done.
Qed.

Lemma commit_order_irrelevant_witness :
  let m := the_model (run_lcg 1 60 5 4 42 3) in
  let ws := zip_with (compute (grid m)) (_agents (schedule m))
              (draws (length (_agents (schedule m))) (random m)) in
  exists m' g', NaSchTraffic_step m = Ok m' /\
    advance_agents (grid m) (reverse ws) = Ok (g', commit <$> reverse ws) /\
    forall p, is_cell_empty g' p = is_cell_empty (grid m') p.
Proof.
  intros m ws.
  apply (commit_order_irrelevant 1 60 5 4 42 m (reverse ws)).
  - apply (run_lcg_reachable 1 60 5 4 42 3). vm_compute. reflexivity.
  - apply reverse_Permutation.
Defined.

(** X16: the speed of a lone vehicle after a braking-free step, on a lane
    of any width: the speed after acceleration, capped at width - 1, the
    number of cells between the vehicle and itself one lap ahead. *)
Theorem lone_vehicle_any_width {rng : Type} `{RandomSource rng}
    h w ms seed (m : NaSchTraffic rng) v :
  reachable h w 1 ms seed m -> _agents (schedule m) = [v] ->
  no_braking 1 (random m) ->
  exists m' v', NaSchTraffic_step m = Ok m' /\
    _agents (schedule m') = [v'] /\
    speed v' = Z.min (speed (accelerate v)) (w - 1).
Proof.
  intros Hr Hv Hnb.
  destruct (reachable_inv _ _ _ _ _ _ Hr) as (Hinv & Hms & _ & Hgw & _).
  destruct (NaSchTraffic_step_spec m Hinv) as (m' & E & _ & _ & Hag & _).
  rewrite step_agents_draws, Hv in Hag. cbn in Hag.
  apply Forall_cons in Hnb as [Hu _].
  unfold compute in Hag. rewrite (randomise_no_brake _ _ Hu) in Hag.
  pose proof (minv_grid _ Hinv) as Hg. rewrite Hv in Hg.
  destruct (inv_speed _ _ Hg v) as [Hs0 Hs1]; [by left|].
  destruct (movement_frame (grid m) (decelerate (grid m) (accelerate v)))
    as (_ & _ & _ & M4 & _).
  eexists m', _. split_and!; [done|exact Hag|].
  cbn. rewrite M4, gap_check_min, cells_ahead_lone by done. rewrite Hgw.
  pose proof (accelerate_le v Hs1). lia.
Qed.

Lemma lone_vehicle_any_width_witness :
  let m := the_model (run_lcg 1 3 1 4 7 2) in
  exists m' v', NaSchTraffic_step m = Ok m' /\
    _agents (schedule m') = [v'] /\
    speed v' = Z.min (speed (accelerate (first_vehicle m))) (3 - 1).
Proof.
  intros m.
  apply (lone_vehicle_any_width 1 3 4 7 m (first_vehicle m)).
  - apply (run_lcg_reachable 1 3 1 4 7 2). vm_compute. reflexivity.
  - vm_compute. reflexivity.
  - unfold no_braking. vm_compute. repeat constructor.
Defined.

(** X17: the update rule in closed form.  For the vehicle at index [i] of
    the schedule and the [i]-th value [u] the step draws, the new speed is
    [g], the smaller of the speed after acceleration and the number of
    empty cells ahead, or [g - 1] when [u < 0.3] and [g > 0]. *)
Theorem new_speed_closed_form {rng : Type} `{RandomSource rng}
    h w q ms seed (m : NaSchTraffic rng) i v u :
  reachable h w q ms seed m ->
  _agents (schedule m) !! i = Some v ->
  draws (length (_agents (schedule m))) (random m) !! i = Some u ->
  exists m' v', NaSchTraffic_step m = Ok m' /\
    _agents (schedule m') !! i = Some v' /\
    speed v'
    = (let g := Z.min (speed (accelerate v)) (cells_ahead (grid m) v) in
       if Qltb u (3 # 10) && (0 <? g) then g - 1 else g).
Proof.
  intros Hr Hv Hu. destruct (reachable_inv _ _ _ _ _ _ Hr) as (Hinv & _).
  destruct (NaSchTraffic_step_spec m Hinv) as (m' & E & _ & _ & Hag & _).
  assert (Hin : v ∈ _agents (schedule m)) by (by eapply list_elem_of_lookup_2).
  destruct (inv_speed _ _ (minv_grid _ Hinv) v Hin) as [Hs0 _].
  exists m', (commit (compute (grid m) v u)). split_and!; [done| |].
  - rewrite Hag, step_agents_draws, list_lookup_fmap, lookup_zip_with, Hv.
    cbn. by rewrite Hu.
  - rewrite speed_commit_compute. cbv zeta.
    rewrite <- gap_check_min by done. unfold randomise.
    by destruct (Qltb u (3 # 10) && (0 <? _)).
Qed.

Lemma new_speed_closed_form_witness :
  let m := the_model (run_lcg 1 60 5 4 42 3) in
  exists m' v', NaSchTraffic_step m = Ok m' /\
    _agents (schedule m') !! 0%nat = Some v' /\ speed v' = 3.
Proof.
  intros m.
  assert (Hr : reachable 1 60 5 4 42 m).
  { apply (run_lcg_reachable 1 60 5 4 42 3). vm_compute. reflexivity. }
  assert (Hv : _agents (schedule m) !! 0%nat = Some (first_vehicle m)).
  { vm_compute. reflexivity. }
  assert (Hu : draws (length (_agents (schedule m))) (random m) !! 0%nat
               = Some (lcg_random (random m)).1).
  { vm_compute. reflexivity. }
  destruct (new_speed_closed_form 1 60 5 4 42 m 0 _ _ Hr Hv Hu)
    as (m' & v' & E & Hv' & Hs).
  exists m', v'. split; [exact E|]. split; [exact Hv'|].
  rewrite Hs. vm_compute. reflexivity.
Defined.

(** X18: the host loop [while model.running: model.step()] terminates from
    every reachable state: it makes 101 - schedule.steps calls (none when
    the step count is already above 100) and stops with [running] false. *)
Theorem host_loop_terminates {rng : Type} `{RandomSource rng}
    h w q ms seed (m : NaSchTraffic rng) fuel :
  reachable h w q ms seed m -> (101 <= fuel)%nat ->
  exists m', run_model fuel 0 m
             = Some (Ok (Z.to_nat (101 - steps (schedule m)), m')) /\
             running m' = false.
Proof.
  intros Hr Hfuel. destruct (reachable_inv _ _ _ _ _ _ Hr) as (Hinv & _).
  pose proof (minv_steps _ Hinv) as Hs0.
  destruct (decide (steps (schedule m) <= 101)) as [Hle|Hgt].
  - destruct (run_model_spec (Z.to_nat (101 - steps (schedule m))) fuel 0%nat
                m Hinv) as (m' & E & Hinv' & Hs'); [lia|lia|].
    exists m'. split; [done|].
    rewrite (minv_running _ Hinv'). apply bool_decide_eq_false_2. lia.
  - assert (Hrun : running m = false).
    { rewrite (minv_running _ Hinv). apply bool_decide_eq_false_2. lia. }
    exists m. split; [|done].
    replace (Z.to_nat (101 - steps (schedule m))) with O by lia.
    destruct fuel; cbn; by rewrite Hrun.
Qed.

Lemma host_loop_terminates_witness :
  let m := the_model (run_lcg 1 60 5 4 42 40) in
  exists m', run_model 101 0 m
             = Some (Ok (Z.to_nat (101 - steps (schedule m)), m')) /\
             running m' = false.
Proof.
  intros m.
  assert (Hr : reachable 1 60 5 4 42 m).
  { apply (run_lcg_reachable 1 60 5 4 42 40). vm_compute. reflexivity. }
  assert (Hf : (101 <= 101)%nat) by lia.
  exact (host_loop_terminates 1 60 5 4 42 m 101%nat Hr Hf).
Defined.
